(** * rpc-script: extraction of sender addresses from captured JSON-RPC records

    A shallow embedding of the three variants of the script
    ([index.js], the counting multi-chain variant and the single-chain
    variant) and the properties of its address extractor and aggregator. *)

From Stdlib Require Import ZArith Ascii String.
From stdpp Require Import base option list strings gmap sorting.

Local Open Scope string_scope.
Local Open Scope list_scope.

(** ** JavaScript values

    Documents come from the database as JSON-like trees.  A number is NaN
    or the integer a double holds, which is all that truthiness, [typeof]
    and the [++] of the counting variant can tell apart here.  Objects
    keep their properties in insertion order.  A function is one of the
    built-ins an object inherits; documents hold none. *)

#[local] Set Warnings "-register-all".

Inductive number : Type :=
  | NaN
  | Num (z : Z).

Inductive value : Type :=
  | VUndef
  | VNull
  | VBool (b : bool)
  | VNumber (n : number)
  | VStr (s : string)
  | VArr (elems : list value)
  | VObj (props : list (string * value))
  | VFunction.

(** [typeof v === 'object'] *)
Definition typeof_object (v : value) : bool :=
  match v with
  | VNull | VArr _ | VObj _ => true
  | _ => false
  end.

(** [Array.isArray(v)] *)
Definition isArray (v : value) : bool :=
  match v with
  | VArr _ => true
  | _ => false
  end.

(** ToBoolean, as applied by [if (v)], [&&] and [||]. *)
Definition truthy (v : value) : bool :=
  match v with
  | VUndef | VNull => false
  | VBool b => b
  | VNumber NaN => false
  | VNumber (Num z) => negb (z =? 0)%Z
  | VStr s => negb (String.eqb s EmptyString)
  | VArr _ | VObj _ | VFunction => true
  end.

(** [v === 'name'] against a string literal. *)
Definition is_string (v : value) (lit : string) : bool :=
  match v with
  | VStr s => String.eqb s lit
  | _ => false
  end.

Definition nullish (v : value) : bool :=
  match v with
  | VUndef | VNull => true
  | _ => false
  end.

(** Own property of an object literal, first binding wins. *)
Fixpoint assoc (k : string) (props : list (string * value)) : value :=
  match props with
  | [] => VUndef
  | (k', v) :: rest => if String.eqb k k' then v else assoc k rest
  end.

(** The own property [k] of an object literal, if it has one. *)
Fixpoint own_prop (k : string) (props : list (string * value)) : option value :=
  match props with
  | [] => None
  | (k', v) :: rest => if String.eqb k k' then Some v else own_prop k rest
  end.

(** [v.name] for a [v] that is neither [null] nor [undefined].  The names
    the script reads ([method], [request], [response], [body], [params],
    [result], [transactions], [from]) are inherited by no built-in
    prototype, so only own properties answer; strings and arrays also
    have [length]. *)
Definition prop (v : value) (name : string) : value :=
  match v with
  | VObj props => assoc name props
  | VArr elems =>
      if String.eqb name "length" then VNumber (Num (Z.of_nat (length elems)))
      else VUndef
  | VStr s =>
      if String.eqb name "length" then VNumber (Num (Z.of_nat (String.length s)))
      else VUndef
  | _ => VUndef
  end.

(** [v[0]] for a [v] that is neither [null] nor [undefined]. *)
Definition elem0 (v : value) : value :=
  match v with
  | VArr (x :: _) => x
  | VObj props => assoc "0" props
  | VStr (String c _) => VStr (String c EmptyString)
  | _ => VUndef
  end.

(** ** Outcomes of evaluation: a value or a thrown exception *)

Inductive error : Type :=
  | TypeError
  | ResolutionError.

Inductive outcome (A : Type) : Type :=
  | Ok (a : A)
  | Throw (e : error).
Arguments Ok {A} a.
Arguments Throw {A} e.

#[global] Instance outcome_ret : MRet outcome := @Ok.
#[global] Instance outcome_bind : MBind outcome := fun A B f o =>
  match o with
  | Ok a => f a
  | Throw e => Throw e
  end.

(** [object[v]] converts [v] to a property key.  A primitive and a
    function always convert.  An array converts through [join], which
    converts every element that is neither [null] nor [undefined].  A
    plain object converts through the [toString] it inherits, which gives
    a string; an own property [toString] hides it: one that is no function
    is passed over, [valueOf] gives no primitive, and the conversion ends
    with a TypeError.  Records hold data and no functions; an own
    [toString] that is a function would be called, and the conversion is
    taken to fail there as well.  The key itself is not kept: it indexes a
    tally that is only logged. *)
Fixpoint toPropertyKey (v : value) : outcome unit :=
  match v with
  | VArr elems =>
      if forallb (fun e => nullish e
                           || match toPropertyKey e with Ok _ => true | Throw _ => false end)
           elems
      then Ok tt else Throw TypeError
  | VObj props =>
      match own_prop "toString" props with
      | None => Ok tt
      | Some _ => Throw TypeError
      end
  | _ => Ok tt
  end.

(** [v.name]: a TypeError on [null] and [undefined]. *)
Definition member (v : value) (name : string) : outcome value :=
  if nullish v then Throw TypeError else Ok (prop v name).

(** [v?.name] *)
Definition optMember (v : value) (name : string) : value :=
  if nullish v then VUndef else prop v name.

(** [v[0]] and [v?.[0]] *)
Definition index0 (v : value) : outcome value :=
  if nullish v then Throw TypeError else Ok (elem0 v).

Definition optIndex0 (v : value) : value :=
  if nullish v then VUndef else elem0 v.

Notation "v ?. name" := (optMember v name)
  (at level 19, name at level 0, left associativity, format "v ?. name").

(** ** [String.prototype.toLowerCase]

    A string is the sequence of its code units, and a character here is
    one code unit below U+0100, by its number: the ASCII characters and
    the Latin-1 supplement.  Text with other characters is not
    represented.  The upper-case letters among these code units are
    [A]-[Z] and U+00C0-U+00DE without the multiplication sign U+00D7; the
    lower-case form of each is 32 code units above it, and every other
    code unit is left as it is. *)

Definition upperCase (c : ascii) : bool :=
  let n := nat_of_ascii c in
  ((65 <=? n) && (n <=? 90) || (192 <=? n) && (n <=? 222) && negb (n =? 215))%nat.

Definition lower_ascii (c : ascii) : ascii :=
  if upperCase c then ascii_of_nat (nat_of_ascii c + 32)%nat else c.

Fixpoint toLowerCase (s : string) : string :=
  match s with
  | EmptyString => EmptyString
  | String c rest => String (lower_ascii c) (toLowerCase rest)
  end.

(** ** The store and the monad of the script

    The script works on three heap objects: the array of documents handed
    over by the query layer, the aggregate it builds ([Agg], one shape per
    variant), and the provider, of which we record the hashes it was asked
    to resolve.  A computation takes a store and leaves a store and an
    outcome; a thrown exception keeps the writes made before it. *)

Record world (Agg : Type) : Type := World {
  documents : list value;
  agg : Agg;
  calls : list value
}.
Arguments World {Agg} _ _ _.
Arguments documents {Agg} _.
Arguments agg {Agg} _.
Arguments calls {Agg} _.

Definition M (Agg A : Type) : Type := world Agg -> world Agg * outcome A.

#[global] Instance M_ret {Agg} : MRet (M Agg) := fun A a w => (w, Ok a).
#[global] Instance M_bind {Agg} : MBind (M Agg) := fun A B f m w =>
  match m w with
  | (w', Ok a) => f a w'
  | (w', Throw e) => (w', Throw e)
  end.

(** The empty statement. *)
Definition skip {Agg} : M Agg unit := mret tt.

(** An expression that may throw, evaluated in the current store. *)
Definition eval {Agg A} (o : outcome A) : M Agg A := fun w => (w, o).

(** [try { body } catch (error) { handler }] *)
Definition try_catch {Agg A} (body : M Agg A) (handler : error -> M Agg A) : M Agg A :=
  fun w =>
    match body w with
    | (w', Ok a) => (w', Ok a)
    | (w', Throw e) => handler e w'
    end.

(** [for (const x of xs) body] *)
Fixpoint for_of {Agg A} (xs : list A) (body : A -> M Agg unit) : M Agg unit :=
  match xs with
  | [] => skip
  | x :: rest => body x;; for_of rest body
  end.

(** A document is passed by reference: its position in the array. *)
Definition ref := nat.

Definition deref {Agg} (doc : ref) : M Agg value :=
  fun w => (w, Ok (nth doc (documents w) VUndef)).

(** The provider answers a hash with a transaction (or [null]) or rejects.
    It is outside the script, and its answer may depend on what it was
    asked before: it is given the hashes asked so far. *)
Definition resolver := list value -> value -> option value.

(** [await provider.getTransaction(txHash)] *)
Definition getTransaction {Agg} (provider : resolver) (txHash : value) : M Agg value :=
  fun w =>
    let w' := World (documents w) (agg w) (calls w ++ [txHash]) in
    match provider (calls w) txHash with
    | Some tx => (w', Ok tx)
    | None => (w', Throw ResolutionError)
    end.

(** A read of the aggregate. *)
Definition gets {Agg A} (f : Agg -> A) : M Agg A :=
  fun w => (w, Ok (f (agg w))).

(** A write to the aggregate. *)
Definition update {Agg} (f : Agg -> Agg * outcome unit) : M Agg unit :=
  fun w =>
    let (a, o) := f (agg w) in
    (World (documents w) a (calls w), o).

(** [a.b.c...]: every step throws on [null] and [undefined]. *)
Fixpoint path (v : value) (names : list string) : outcome value :=
  match names with
  | [] => Ok v
  | name :: rest => v' ← member v name; path v' rest
  end.

(** The elements a [for ... of] visits. *)
Definition iterate (v : value) : outcome (list value) :=
  match v with
  | VArr elems => Ok elems
  | VStr s => Ok ((fun c => VStr (String c EmptyString)) <$> list_ascii_of_string s)
  | _ => Throw TypeError
  end.

(** [v > 0] *)
Definition positive_number (v : value) : bool :=
  match v with
  | VNumber (Num z) => (0 <? z)%Z
  | _ => false
  end.

(** ** The extractor: [processDocument]

    The three variants of the script share the body of [processDocument]
    word for word and differ in the closure [addAddress] alone, which is
    taken as a parameter here and supplied by each variant below. *)

Section Extractor.
Context {Agg : Type}.
Variable addAddress : value -> Agg -> Agg * outcome unit.

(** The guards of the [if] / [else if] chain and of CASE 3 and CASE 4,
    with the short-circuit order of [&&]. *)
Definition isBlockWithTransactions (d : value) : outcome bool :=
  method ← member d "method";
  if is_string method "eth_getBlockByNumber" || is_string method "eth_getBlockByHash"
  then response ← member d "response";
       mret (isArray (response?."body"?."result"?."transactions"))
  else mret false.

Definition isSendRawTransaction (d : value) : outcome bool :=
  method ← member d "method";
  if is_string method "eth_sendRawTransaction"
  then response ← member d "response";
       mret (truthy (response?."body"?."result"))
  else mret false.

Definition isGetTransactionByHash (d : value) : outcome bool :=
  method ← member d "method";
  if is_string method "eth_getTransactionByHash"
  then response ← member d "response";
       mret (truthy (response?."body"?."result"?."from"))
  else mret false.

Definition isGetTransactionReceipt (d : value) : outcome bool :=
  method ← member d "method";
  mret (is_string method "eth_getTransactionReceipt").

Definition hasParams (d : value) : outcome bool :=
  request ← member d "request";
  mret (truthy (request?."body"?."params")).

Definition isCallWithFrom (d : value) : outcome bool :=
  method ← member d "method";
  if is_string method "eth_call" || is_string method "eth_estimateGas"
  then request ← member d "request";
       mret (truthy ((optIndex0 (request?."body"?."params"))?."from"))
  else mret false.

(** [if (tx.from) addAddress(tx.from)] *)
Definition addSender (tx : value) : M Agg unit :=
  from ← eval (member tx "from");
  if truthy from then update (addAddress from) else skip.

(** The [try] block the script repeats wherever it resolves a hash:
    [const txDetails = await provider.getTransaction(txHash);
     if (txDetails?.from) addAddress(txDetails.from);]
    with the empty [catch]. *)
Definition resolveSender (provider : resolver) (txHash : value) : M Agg unit :=
  try_catch
    (txDetails ← getTransaction provider txHash;
     if truthy (txDetails?."from")
     then from ← eval (member txDetails "from"); update (addAddress from)
     else skip)
    (fun _ => skip).

(** CASE 1, the body of the first branch. *)
Definition blockTransactions (provider : resolver) (d : value) : M Agg unit :=
  txs ← eval (path d ["response"; "body"; "result"; "transactions"]);
  if positive_number (prop txs "length") && typeof_object (elem0 txs)
  then elems ← eval (iterate txs); for_of elems addSender
  else elems ← eval (iterate txs); for_of elems (resolveSender provider).

(** CASE 1 and CASE 2: the [if] / [else if] chain on the method. *)
Definition standardMethods (doc : ref) (provider : resolver) : M Agg unit :=
  d ← deref doc;
  c1 ← eval (isBlockWithTransactions d);
  if (c1 : bool) then blockTransactions provider d else
  c2 ← eval (isSendRawTransaction d);
  if (c2 : bool) then
    txHash ← eval (path d ["response"; "body"; "result"]);
    resolveSender provider txHash
  else
  c3 ← eval (isGetTransactionByHash d);
  if (c3 : bool) then
    from ← eval (path d ["response"; "body"; "result"; "from"]);
    update (addAddress from)
  else
  c4 ← eval (isGetTransactionReceipt d);
  if (c4 : bool) then
    request ← eval (member d "request");
    let txHash := optIndex0 (request?."body"?."params") in
    if truthy txHash then resolveSender provider txHash else skip
  else skip.

(** [if (param && typeof param === 'object' && param.from) addAddress(param.from)] *)
Definition addParamSender (param : value) : M Agg unit :=
  if truthy param && typeof_object param then
    from ← eval (member param "from");
    if truthy from then update (addAddress from) else skip
  else skip.

(** CASE 3: from fields in request parameters. *)
Definition requestParams (doc : ref) : M Agg unit :=
  d ← deref doc;
  c ← eval (hasParams d);
  if (c : bool) then
    params ← eval (path d ["request"; "body"; "params"]);
    if isArray params
    then elems ← eval (iterate params); for_of elems addParamSender
    else skip
  else skip.

(** CASE 4: method-specific parameter patterns. *)
Definition callParams (doc : ref) : M Agg unit :=
  d ← deref doc;
  c ← eval (isCallWithFrom d);
  if (c : bool) then
    params ← eval (path d ["request"; "body"; "params"]);
    param ← eval (index0 params);
    from ← eval (member param "from");
    update (addAddress from)
  else skip.

Definition processDocument (doc : ref) (provider : resolver) : M Agg unit :=
  standardMethods doc provider;;
  requestParams doc;;
  callParams doc.

(** The loop of [extractFromAddresses]: every document in its own
    [try], the [catch] only logs. *)
Definition processAll (provider : resolver) : M Agg unit :=
  fun w =>
    for_of (seq 0 (length (documents w)))
      (fun doc => try_catch (processDocument doc provider) (fun _ => skip)) w.

End Extractor.

(** [methodCounts[doc.method] = (methodCounts[doc.method] || 0) + 1], the
    statement the single-chain variant has before [processDocument].  The
    tally is only logged; what the statement does to the run is throw,
    when the document is [null] or [undefined] or its method does not
    convert to a property key. *)
Definition countMethod {Agg} (doc : ref) : M Agg unit :=
  d ← deref doc;
  method ← eval (member d "method");
  eval (toPropertyKey method).

(** ** The aggregate *)

(** [Set.prototype.add] on a [Set] of strings, kept in insertion order
    (the order [Array.from] returns). *)
Definition Set_add (x : string) (s : list string) : list string :=
  if decide (x ∈ s) then s else s ++ [x].

(** [address.toLowerCase()]: only a string has the method. *)
Definition call_toLowerCase (address : value) : outcome string :=
  match address with
  | VStr s => Ok (toLowerCase s)
  | _ => Throw TypeError
  end.

(** [index.js]: unique addresses of all chains, no counts. *)
Module Index.

(** [if (address) uniqueAddresses.add(address.toLowerCase())] *)
Definition addAddress (address : value) (uniqueAddresses : list string)
  : list string * outcome unit :=
  if truthy address then
    match call_toLowerCase address with
    | Ok lowerAddress => (Set_add lowerAddress uniqueAddresses, Ok tt)
    | Throw e => (uniqueAddresses, Throw e)
    end
  else (uniqueAddresses, Ok tt).

Definition processDocument : ref -> resolver -> M (list string) unit :=
  processDocument addAddress.

(** A fresh [Set], the loop over the documents, [Array.from]. *)
Definition extractFromAddresses (provider : resolver) : M (list string) (list string) :=
  update (fun _ => ([], Ok tt));;
  processAll addAddress provider;;
  gets id.

Definition mergeAddresses (allAddressArrays : list (list string)) : list string :=
  foldl (fun allUniqueAddresses addressArray =>
           foldl (fun s address => Set_add address s) allUniqueAddresses addressArray)
        [] allAddressArrays.

End Index.

(** The counting variant: the same [Set] per chain and one counts object,
    created by [main] as [{}] and shared by all chains. *)
Module Counts.

(** What a plain object inherits from [Object.prototype]. *)
Definition Object_prototype (k : string) : value :=
  if bool_decide (k ∈ ["constructor"; "hasOwnProperty"; "isPrototypeOf";
                       "propertyIsEnumerable"; "toLocaleString"; "toString";
                       "valueOf"; "__defineGetter__"; "__defineSetter__";
                       "__lookupGetter__"; "__lookupSetter__"])
  then VFunction
  else if String.eqb k "__proto__" then VObj []
  else VUndef.

(** [addressCounts[k]]: the own property, else the inherited one. *)
Definition getCount (addressCounts : gmap string number) (k : string) : value :=
  match addressCounts !! k with
  | Some n => VNumber n
  | None => Object_prototype k
  end.

(** [addressCounts[k] = n]: the [__proto__] setter ignores a number. *)
Definition setCount (addressCounts : gmap string number) (k : string) (n : number)
  : gmap string number :=
  if String.eqb k "__proto__" then addressCounts else <[k := n]> addressCounts.

(** ToNumber of what [addressCounts[k]] can hold: a number stored by
    [addAddress], or a function or object inherited from the prototype,
    which convert to NaN. *)
Definition toNumber (v : value) : number :=
  match v with
  | VNumber n => n
  | _ => NaN
  end.

(** The integer a number holds after an addition: a sum up to [2^53] in
    absolute value is exact; a larger one is rounded to the nearest number
    with 53 significant bits, a tie to the one whose last bit is 0. *)
Definition maxExact : Z := 9007199254740992.

Definition roundToDouble (z : Z) : Z :=
  if (Z.abs z <=? maxExact)%Z then z
  else
    let ulp := (2 ^ (Z.log2 (Z.abs z) - 52))%Z in
    let q := (Z.abs z / ulp)%Z in
    let r := (Z.abs z mod ulp)%Z in
    let q' := if (2 * r <? ulp)%Z then q
              else if (ulp <? 2 * r)%Z then (q + 1)%Z
              else if Z.even q then q else (q + 1)%Z in
    (Z.sgn z * (q' * ulp))%Z.

(** [addressCounts[k]++] stores the old number plus 1; on the number
    [2^53] that is [2^53] again. *)
Definition succ (n : number) : number :=
  match n with
  | NaN => NaN
  | Num z => Num (roundToDouble (z + 1))
  end.

Record aggregate : Type := Aggregate {
  uniqueAddresses : list string;
  addressCounts : gmap string number
}.

Definition addAddress (address : value) (a : aggregate) : aggregate * outcome unit :=
  if truthy address then
    match call_toLowerCase address with
    | Ok lowerAddress =>
        let uniq := Set_add lowerAddress (uniqueAddresses a) in
        let counts := addressCounts a in
        if truthy (getCount counts lowerAddress)
        then (Aggregate uniq (setCount counts lowerAddress
                                (succ (toNumber (getCount counts lowerAddress)))),
              Ok tt)
        else (Aggregate uniq (setCount counts lowerAddress (Num 1)), Ok tt)
    | Throw e => (a, Throw e)
    end
  else (a, Ok tt).

Definition processDocument : ref -> resolver -> M aggregate unit :=
  processDocument addAddress.

(** A fresh [Set] for the chain, the counts object of the caller. *)
Definition extractFromAddresses (provider : resolver) : M aggregate (list string) :=
  update (fun a => (Aggregate [] (addressCounts a), Ok tt));;
  processAll addAddress provider;;
  gets uniqueAddresses.

Definition mergeAddresses : list (list string) -> list string :=
  Index.mergeAddresses.

End Counts.

(** The single-chain variant: one [Map] from address to count.  The
    counts stay far below the integers a JavaScript number stops telling
    apart, so they are natural numbers here. *)
Module Single.

(** [addressCounts.set(lowerAddress, (addressCounts.get(lowerAddress) || 0) + 1)],
    without the guard of the other two variants. *)
Definition addAddress (address : value) (addressCounts : gmap string nat)
  : gmap string nat * outcome unit :=
  match call_toLowerCase address with
  | Ok lowerAddress =>
      (<[lowerAddress := default 0 (addressCounts !! lowerAddress) + 1]> addressCounts,
       Ok tt)
  | Throw e => (addressCounts, Throw e)
  end.

Definition processDocument : ref -> resolver -> M (gmap string nat) unit :=
  processDocument addAddress.

(** The loop of this variant: every document in its own [try], first
    the tally of methods, then [processDocument]; the [catch] only logs. *)
Definition processAll (provider : resolver) : M (gmap string nat) unit :=
  fun w =>
    for_of (seq 0 (length (documents w)))
      (fun doc => try_catch (countMethod doc;; processDocument doc provider)
                    (fun _ => skip)) w.

(** A fresh [Map], the loop over the documents, the entries of the map. *)
Definition extractFromAddresses (provider : resolver)
  : M (gmap string nat) (gmap string nat) :=
  update (fun _ => (∅, Ok tt));;
  processAll provider;;
  gets id.

End Single.

(** ** Notions used in the statements *)

(** A relation between stores that every step of a computation keeps. *)
Definition steps {Agg} (R : world Agg -> world Agg -> Prop) {A} (m : M Agg A) : Prop :=
  forall w, R w (fst (m w)).

(** The exceptions a computation can end with. *)
Definition raises {Agg A} (P : error -> Prop) (m : M Agg A) : Prop :=
  forall w e, snd (m w) = Throw e -> P e.

(** The exceptions an expression can end with. *)
Definition raises_pure {A} (P : error -> Prop) (o : outcome A) : Prop :=
  forall e, o = Throw e -> P e.

(** An address in normalized form: none of its characters is an
    upper-case letter. *)
Definition normalized (s : string) : Prop :=
  Forall (fun c => upperCase c = false) (list_ascii_of_string s).

(** One letter in either case, or the same character twice. *)
Definition sameLetter (c1 c2 : ascii) : Prop :=
  c1 = c2
  \/ (upperCase c1 = true /\ nat_of_ascii c2 = nat_of_ascii c1 + 32)
  \/ (upperCase c2 = true /\ nat_of_ascii c1 = nat_of_ascii c2 + 32).

(** Two spellings of one address: they differ in the case of letters
    only. *)
Definition sameAddress (s1 s2 : string) : Prop :=
  Forall2 sameLetter (list_ascii_of_string s1) (list_ascii_of_string s2).

(** The counting variant stores normalized addresses only. *)
Definition Counts_normalized (a : Counts.aggregate) : Prop :=
  Forall normalized (Counts.uniqueAddresses a)
  /\ forall k, k ∈ dom (Counts.addressCounts a) -> normalized k.

(** How often an address was added: the strings that lower-case to it. *)
Definition additions (a : string) (added : list string) : nat :=
  length (filter (fun s => toLowerCase s = a) added).

(** The count the counting variant holds for an address: the stored
    number, 0 when there is none. *)
Definition Counts_count (addressCounts : gmap string number) (k : string) : Z :=
  match addressCounts !! k with
  | Some (Num z) => z
  | _ => 0%Z
  end.

(** [v?.a?.b...], the optional chain over a list of names. *)
Fixpoint optPath (v : value) (names : list string) : value :=
  match names with
  | [] => v
  | name :: rest => optPath (v?.name) rest
  end.

(** [doc.request?.body?.params] of a document that is an object. *)
Definition params_of (d : value) : value := (prop d "request")?."body"?."params".

(** The guard of CASE 3 on one parameter:
    [param && typeof param === 'object' && param.from]. *)
Definition carriesFrom (param : value) : bool :=
  truthy param && typeof_object param && truthy (prop param "from").


(** The methods CASE 1 looks at. *)
Definition blockMethod (method : value) : bool :=
  is_string method "eth_getBlockByNumber" || is_string method "eth_getBlockByHash".

(** The methods CASE 4 looks at. *)
Definition callMethod (method : value) : bool :=
  is_string method "eth_call" || is_string method "eth_estimateGas".

(** The methods the [if] / [else if] chain looks at. *)
Definition standardMethod (method : value) : bool :=
  is_string method "eth_getBlockByNumber" || is_string method "eth_getBlockByHash"
  || is_string method "eth_sendRawTransaction"
  || is_string method "eth_getTransactionByHash"
  || is_string method "eth_getTransactionReceipt".

(** [txs.length > 0 && typeof txs[0] === 'object'] on the elements of [txs]. *)
Definition firstIsObject (elems : list value) : bool :=
  match elems with
  | t0 :: _ => typeof_object t0
  | [] => false
  end.

(** [Set.prototype.add] of every element of a list, in order. *)
Definition Set_addAll (s : list string) (l : list string) : list string :=
  foldl (fun s a => Set_add a s) s l.

(** The sender a provider's answer gives: the lower-cased [from] of the
    transaction it returns, when that is a non-empty string. *)
Definition resolvedSender (answer : option value) : list string :=
  match answer with
  | Some tx =>
      match tx?."from" with
      | VStr s => if String.eqb s EmptyString then [] else [toLowerCase s]
      | _ => []
      end
  | None => []
  end.

(** The senders a list of hashes resolves to when the provider is asked
    for them in order, after the hashes of [asked]. *)
Fixpoint resolvedSenders (provider : resolver) (asked txs : list value) : list string :=
  match txs with
  | [] => []
  | txHash :: rest =>
      resolvedSender (provider asked txHash)
      ++ resolvedSenders provider (asked ++ [txHash]) rest
  end.

(** ** Sample records *)

Definition request_with (params : list value) : string * value :=
  ("request", VObj [("body", VObj [("params", VArr params)])]).

Definition response_with (result : value) : string * value :=
  ("response", VObj [("body", VObj [("result", result)])]).

Definition sample_call : value :=
  VObj [("method", VStr "eth_call");
        request_with [VObj [("from", VStr "0xAbC"); ("to", VStr "0xDeF")]; VStr "latest"]].

Definition sample_lookup : value :=
  VObj [("method", VStr "eth_getTransactionByHash");
        request_with [VStr "0xh1"];
        response_with (VObj [("hash", VStr "0xh1"); ("from", VStr "0xABC")])].

Definition sample_chainId : value :=
  VObj [("method", VStr "eth_chainId"); request_with []; response_with (VStr "0x1")].

Definition sample_block_hashes : value :=
  VObj [("method", VStr "eth_getBlockByNumber");
        request_with [VStr "0x10"; VBool false];
        response_with (VObj [("transactions", VArr [VStr "0xh1"; VStr "0xh2"])])].

Definition sample_block_objects : value :=
  VObj [("method", VStr "eth_getBlockByHash");
        request_with [VStr "0xb1"; VBool true];
        response_with (VObj [("transactions",
                              VArr [VObj [("from", VStr "0xA")]; VStr "0xh2";
                                    VObj [("from", VStr "0xB")]])])].

(** A block with three full transactions, two of them from one sender. *)
Definition sample_block_full : value :=
  VObj [("method", VStr "eth_getBlockByNumber");
        request_with [VStr "0x12"; VBool true];
        response_with (VObj [("transactions",
                              VArr [VObj [("from", VStr "0xA")];
                                    VObj [("from", VStr "0xB")];
                                    VObj [("from", VStr "0xA")]])])].

(** A block whose only transaction is [null], with a sender among the
    request parameters. *)
Definition sample_block_null : value :=
  VObj [("method", VStr "eth_getBlockByNumber");
        request_with [VObj [("from", VStr "0xA")]];
        response_with (VObj [("transactions", VArr [VNull])])].

(** A request whose sender lower-cases to the name of a property that
    every object inherits. *)
Definition sample_constructor : value :=
  VObj [("method", VStr "eth_sendTransaction");
        request_with [VObj [("from", VStr "Constructor")]]].



(** A provider that knows one transaction and fails on the rest. *)
Definition sample_provider : resolver :=
  fun _ txHash =>
    if is_string txHash "0xh1" then Some (VObj [("from", VStr "0xC")]) else None.

Definition failing_provider : resolver := fun _ _ => None.

(** ** Configuration

    The environment holds strings; a variable that is not set reads as
    [undefined].  [process.exit] ends the run with a code; [new Error]
    thrown by the script carries its message. *)

(** [String.prototype.toUpperCase] on the same code units: the
    lower-case letters [a]-[z] and U+00E0-U+00FE without the division sign
    U+00F7 go 32 code units down.  Three lower-case letters have their
    upper-case form outside this range (U+00B5, U+00DF, U+00FF); they are
    left as they are. *)
Definition upper_ascii (c : ascii) : ascii :=
  let n := nat_of_ascii c in
  if ((97 <=? n) && (n <=? 122) || (224 <=? n) && (n <=? 254) && negb (n =? 247))%nat
  then ascii_of_nat (n - 32)%nat else c.

Fixpoint toUpperCase (s : string) : string :=
  match s with
  | EmptyString => EmptyString
  | String c rest => String (upper_ascii c) (toUpperCase rest)
  end.

Inductive status : Type :=
  | Running
  | Exited (code : nat).

Inductive attempt (A : Type) : Type :=
  | Done (a : A)
  | Failed (message : string).
Arguments Done {A} a.
Arguments Failed {A} message.

(** [process.env[name]] *)
Definition env_value (env : gmap string string) (name : string) : value :=
  match env !! name with
  | Some s => VStr s
  | None => VUndef
  end.

(** [process.env[name] || fallback] *)
Definition env_or (env : gmap string string) (name fallback : string) : string :=
  match env !! name with
  | Some s => if String.eqb s EmptyString then fallback else s
  | None => fallback
  end.

(** [object[k]] on an object literal: the own property, else what
    [Object.prototype] gives. *)
Definition object_get (props : list (string * value)) (k : string) : value :=
  match own_prop k props with
  | Some v => v
  | None => Counts.Object_prototype k
  end.

(** [config.rpc], the same in the three variants. *)
Definition config_rpc (env : gmap string string) : list (string * value) :=
  [("bnb", env_value env "BNB_RPC_URL");
   ("holesky", env_value env "HOLESKY_RPC_URL");
   ("bnbtestnet", env_value env "BNBTESTNET_RPC_URL");
   ("mainnet", env_value env "MAINNET_RPC_URL")].

(** [`${chain.toUpperCase()}_RPC_URL`] *)
Definition rpcUrlVar (chain : string) : string :=
  String.append (toUpperCase chain) "_RPC_URL".

(** [new ethers.JsonRpcProvider(url)]: the constructor keeps a string as
    the URL to connect to, and of any other value that is not [null] or
    [undefined] it calls the method [clone], which only a request object
    has: a TypeError, with the message of the engine.  The provider is
    known by the URL it is built from. *)
Definition JsonRpcProvider (url : value) : attempt value :=
  match url with
  | VStr _ => Done url
  | _ => Failed "url.clone is not a function"
  end.

(** [getRpcProvider], the same in the three variants. *)
Definition getRpcProvider (env : gmap string string) (chain : string) : attempt value :=
  let rpcUrl := object_get (config_rpc env) (toLowerCase chain) in
  if truthy rpcUrl then JsonRpcProvider rpcUrl
  else Failed (String.append "No RPC URL configured for chain: " chain).

(** [requiredVars.filter(varName => !process.env[varName])] *)
Definition missing (env : gmap string string) (vars : list string) : list string :=
  List.filter (fun varName => negb (truthy (env_value env varName))) vars.

(** [index.js] and the counting variant: all chains. *)
Module Config.

Definition ALL_CHAINS : list string := ["bnb"; "mainnet"; "bnbtestnet"; "holesky"].

Definition requiredVars : list string :=
  ["MONGODB_URI"; "MONGODB_DB_NAME"; "START_TIMESTAMP"].

Definition validateConfig (env : gmap string string) : status :=
  let missingVars := missing env requiredVars in
  if (0 <? length missingVars)%nat then Exited 1 else
  let missingRpcUrls := missing env (rpcUrlVar <$> ALL_CHAINS) in
  if (0 <? length missingRpcUrls)%nat then Exited 1 else Running.

(** [process.env.OUTPUT_FILE || 'all_chains_unique_addresses.csv'] *)
Definition output (env : gmap string string) : string :=
  env_or env "OUTPUT_FILE" "all_chains_unique_addresses.csv".

End Config.

(** The single-chain variant: the chain comes from the command line or
    from the environment. *)
Module SingleConfig.

Definition requiredVars : list string :=
  ["MONGODB_URI"; "MONGODB_DB_NAME"; "START_TIMESTAMP"; "END_TIMESTAMP"].

(** [cmdTargetChain || process.env.TARGET_CHAIN], with
    [cmdTargetChain = args[0]] *)
Definition targetChain (args : list string) (env : gmap string string) : value :=
  let cmdTargetChain := match args with
                        | arg :: _ => VStr arg
                        | [] => VUndef
                        end in
  if truthy cmdTargetChain then cmdTargetChain else env_value env "TARGET_CHAIN".

Definition validateConfig (args : list string) (env : gmap string string) : status :=
  let missingVars := missing env requiredVars in
  if (0 <? length missingVars)%nat then Exited 1 else
  match targetChain args env with
  | VStr chain =>
      if truthy (VStr chain) then
        if truthy (env_value env (rpcUrlVar chain)) then Running else Exited 1
      else Exited 1
  | _ => Exited 1
  end.

(** [process.env.OUTPUT_FILE || 'unique_addresses.csv'] *)
Definition output (env : gmap string string) : string :=
  env_or env "OUTPUT_FILE" "unique_addresses.csv".

End SingleConfig.

(** ** Chains, the run and its reports

    What the script reaches outside itself is taken as given: the
    documents the database returns for a chain (or the failure of the
    query), the behaviour of the provider built from a URL, and whether a
    file can be written. *)

Definition database := string -> option (list value).
Definition network := value -> resolver.
Definition disk := string -> bool.

(** The value a computation returns. *)
Definition answer {Agg A} (a : A) : M Agg A := mret a.

(** The array the query returned becomes the array being processed. *)
Definition load {Agg} (transactions : list value) : M Agg unit :=
  fun w => (World transactions (agg w) (calls w), Ok tt).

(** [config.output.replace(/\.csv$/, '')]: the suffix goes when the string
    ends with it. *)
Fixpoint stripCsv (s : string) : string :=
  match s with
  | EmptyString => EmptyString
  | String c rest => if String.eqb s ".csv" then EmptyString else String c (stripCsv rest)
  end.

Definition statsFilename (output : string) : string :=
  String.append (stripCsv output) "_stats.csv".

Definition countsFilename (output : string) : string :=
  String.append (stripCsv output) "_counts.csv".

(** [index.js]: the chains one after the other, one merged report. *)
Module IndexMain.

Definition processChain (env : gmap string string) (db : database) (net : network)
    (chain : string) : M (list string) (list string) :=
  match getRpcProvider env chain with
  | Failed _ => answer []
  | Done rpcUrl =>
      match db chain with
      | None => answer []
      | Some transactions =>
          if (length transactions =? 0)%nat then answer []
          else try_catch
                 (load transactions;; Index.extractFromAddresses (net rpcUrl))
                 (fun _ => answer [])
      end
  end.

(** The loop of [main]: [allAddressArrays.push(await processChain(db, chain))]. *)
Fixpoint processChains (env : gmap string string) (db : database) (net : network)
    (chains : list string) : M (list string) (list (list string)) :=
  match chains with
  | [] => answer []
  | chain :: rest =>
      addresses ← processChain env db net chain;
      arrays ← processChains env db net rest;
      answer (addresses :: arrays)
  end.

(** [main]: the exit code and the file written, if any. *)
Definition main (env : gmap string string) (connect : option database)
    (net : network) (writable : disk) : status * option (string * list string) :=
  match Config.validateConfig env with
  | Exited code => (Exited code, None)
  | Running =>
      match connect with
      | None => (Exited 1, None)
      | Some db =>
          match processChains env db net Config.ALL_CHAINS (World [] [] []) with
          | (_, Ok allAddressArrays) =>
              let mergedAddresses := Index.mergeAddresses allAddressArrays in
              if writable (Config.output env)
              then (Exited 0, Some (Config.output env, mergedAddresses))
              else (Exited 1, None)
          | (_, Throw _) => (Exited 1, None)
          end
      end
  end.

End IndexMain.

(** The counting variant: one counts object for all chains, three reports. *)
Module CountsMain.

Definition processChain (env : gmap string string) (db : database) (net : network)
    (chain : string) : M Counts.aggregate (list string * nat) :=
  match getRpcProvider env chain with
  | Failed _ => answer ([], 0)
  | Done rpcUrl =>
      match db chain with
      | None => answer ([], 0)
      | Some transactions =>
          if (length transactions =? 0)%nat then answer ([], 0)
          else try_catch
                 (load transactions;;
                  addresses ← Counts.extractFromAddresses (net rpcUrl);
                  answer (addresses, length transactions))
                 (fun _ => answer ([], 0))
      end
  end.

(** The variables [main] updates in its loop.  [transactionsByChain] is
    an object indexed by the names of [ALL_CHAINS] only. *)
Record tally : Type := Tally {
  allAddressArrays : list (list string);
  totalTransactions : nat;
  transactionsByChain : gmap string nat
}.

Fixpoint processChains (env : gmap string string) (db : database) (net : network)
    (chains : list string) (t : tally) : M Counts.aggregate tally :=
  match chains with
  | [] => answer t
  | chain :: rest =>
      r ← processChain env db net chain;
      processChains env db net rest
        (Tally (allAddressArrays t ++ [fst r])
               (totalTransactions t + snd r)
               (<[chain := snd r]> (transactionsByChain t)))
  end.

Inductive cell : Type :=
  | Text (s : string)
  | Number (n : nat).

(** The records of [writeTransactionStatsToCsv]; the two dates come from
    the clock. *)
Definition statsRecords (walletCount totalTransactions : nat)
    (transactionsByChain : gmap string nat) (startDate endDate : string)
  : list (string * cell) :=
  [("Time Period Start", Text startDate);
   ("Time Period End", Text endDate);
   ("Total Unique Wallets", Number walletCount);
   ("Total Transactions", Number totalTransactions)]
  ++ ((fun chain => (String.append "Transactions on " chain,
                     Number (default 0 (transactionsByChain !! chain))))
      <$> Config.ALL_CHAINS).

Inductive file : Type :=
  | AddressesCsv (path : string) (addresses : list string)
  | StatsCsv (path : string) (records : list (string * cell))
  | CountsCsv (path : string) (addressCounts : gmap string number).

(** [main]: the exit code and the files written before it. *)
Definition main (env : gmap string string) (connect : option database)
    (net : network) (writable : disk) (startDate endDate : string)
  : status * list file :=
  match Config.validateConfig env with
  | Exited code => (Exited code, [])
  | Running =>
      match connect with
      | None => (Exited 1, [])
      | Some db =>
          match processChains env db net Config.ALL_CHAINS (Tally [] 0 ∅)
                  (World [] (Counts.Aggregate [] ∅) []) with
          | (w, Ok t) =>
              let mergedAddresses := Counts.mergeAddresses (allAddressArrays t) in
              let output := Config.output env in
              let addresses := AddressesCsv output mergedAddresses in
              let stats :=
                StatsCsv (statsFilename output)
                  (statsRecords (length mergedAddresses) (totalTransactions t)
                     (transactionsByChain t) startDate endDate) in
              let counts :=
                CountsCsv (countsFilename output) (Counts.addressCounts (agg w)) in
              if negb (writable output) then (Exited 1, [])
              else if negb (writable (statsFilename output)) then (Exited 1, [addresses])
              else if negb (writable (countsFilename output))
                   then (Exited 1, [addresses; stats])
              else (Exited 0, [addresses; stats; counts])
          | (_, Throw _) => (Exited 1, [])
          end
      end
  end.

End CountsMain.

(** The single-chain variant: one chain, one report sorted by count. *)
Module SingleMain.

(** The comparator [(a, b) => b.count - a.count] puts [a] after [b]
    exactly when [a.count < b.count]. *)
Fixpoint insertByCount (a : string * nat) (sorted : list (string * nat))
  : list (string * nat) :=
  match sorted with
  | [] => [a]
  | b :: rest =>
      if (snd a <? snd b)%nat then b :: insertByCount a rest else a :: b :: rest
  end.

(** [addressData.sort((a, b) => b.count - a.count)].  The sort of the
    engine is stable, and a stable sort has one result: the one insertion
    from the right computes. *)
Definition sortByCount (addressData : list (string * nat)) : list (string * nat) :=
  foldr insertByCount [] addressData.

(** [sortedAddresses.slice(0, 5)], the rows [writeAddressesToCsv] prints. *)
Definition topFive (sortedAddresses : list (string * nat)) : list (string * nat) :=
  take 5 sortedAddresses.

(** [`${config.query.targetChain}_${config.output}`] *)
Definition filename (chain output : string) : string :=
  String.append chain (String.append "_" output).

(** [main]: the exit code and, when the report is written, its name and
    the counts it holds; [writeAddressesToCsv] orders the rows. *)
Definition main (args : list string) (env : gmap string string)
    (connect : option database) (net : network) (writable : disk)
  : status * option (string * gmap string nat) :=
  match SingleConfig.validateConfig args env with
  | Exited code => (Exited code, None)
  | Running =>
      match SingleConfig.targetChain args env with
      | VStr chain =>
          match connect with
          | None => (Exited 1, None)
          | Some db =>
              match getRpcProvider env chain with
              | Failed _ => (Exited 1, None)
              | Done rpcUrl =>
                  match db chain with
                  | None => (Exited 1, None)
                  | Some transactions =>
                      match Single.extractFromAddresses (net rpcUrl)
                              (World transactions ∅ []) with
                      | (_, Ok fromAddresses) =>
                          let path := filename chain (SingleConfig.output env) in
                          if writable path then (Exited 0, Some (path, fromAddresses))
                          else (Exited 1, None)
                      | (_, Throw _) => (Exited 1, None)
                      end
                  end
              end
          end
      | _ => (Exited 1, None)
      end
  end.

End SingleMain.

(** ** Notions used in the further statements *)

(** Rows in non-increasing order of count. *)
Definition byCount (a b : string * nat) : Prop := snd b <= snd a.

(** The sender a [from] value gives: its lower-cased form when it is a
    non-empty string. *)
Definition senderOf (from : value) : list string :=
  match from with
  | VStr s => if String.eqb s EmptyString then [] else [toLowerCase s]
  | _ => []
  end.

(** The senders of the full transactions of a block, in order. *)
Definition inlineSenders (txs : list value) : list string :=
  flat_map (fun tx => senderOf (prop tx "from")) txs.

(** A transaction object whose [from], when it is set, is a string. *)
Definition wellFormedTx (tx : value) : Prop :=
  nullish tx = false
  /\ (truthy (prop tx "from") = true -> exists s, prop tx "from" = VStr s).

(** Two stores that hold the same documents and the same log of resolver
    calls, and aggregates that correspond. *)
Definition agree {A1 A2} (Rel : A1 -> A2 -> Prop) (w1 : world A1) (w2 : world A2) : Prop :=
  documents w1 = documents w2 /\ calls w1 = calls w2 /\ Rel (agg w1) (agg w2).

(** A document the single-chain variant can tally: its method converts to
    a property key.  [null] and [undefined] are no such documents, but no
    variant gets past reading their method. *)
Definition tallied (d : value) : Prop :=
  nullish d = false -> toPropertyKey (prop d "method") = Ok tt.

(** A record whose method does not convert to a property key. *)
Definition sample_untallied : value :=
  VObj [("method", VObj [("toString", VNumber (Num 1))]);
        request_with [VObj [("from", VStr "0xA")]]].

(** Two computations that, from stores that agree, end with the same
    outcome in stores that agree. *)
Definition simulates {A1 A2 X} (Rel : A1 -> A2 -> Prop)
    (m1 : M A1 X) (m2 : M A2 X) : Prop :=
  forall w1 w2, agree Rel w1 w2 ->
    agree Rel (fst (m1 w1)) (fst (m2 w2)) /\ snd (m1 w1) = snd (m2 w2).

(** The counts object and the addresses found so far list the same keys:
    every key of the counts is an address of the current set or of the
    earlier arrays, and every such address but [__proto__] is a key. *)
Definition counted (earlier : list string) (a : Counts.aggregate) : Prop :=
  (forall k, k ∈ dom (Counts.addressCounts a) ->
             k ∈ Counts.uniqueAddresses a \/ k ∈ earlier)
  /\ (forall k, k ∈ Counts.uniqueAddresses a \/ k ∈ earlier ->
                k <> "__proto__" -> k ∈ dom (Counts.addressCounts a)).

(** The sum of the numbers of a list. *)
Definition total (numbers : list nat) : nat := foldr Nat.add 0 numbers.

(** The number of documents the query returns for a chain, 0 when the
    query fails. *)
Definition found (db : database) (chain : string) : nat :=
  match db chain with
  | Some transactions => length transactions
  | None => 0
  end.

Definition reportPath (f : CountsMain.file) : string :=
  match f with
  | CountsMain.AddressesCsv path _ => path
  | CountsMain.StatsCsv path _ => path
  | CountsMain.CountsCsv path _ => path
  end.

(** The reports on disk when they are written one after the other and
    the first that cannot be written ends the run. *)
Fixpoint writtenBefore (writable : disk) (reports : list CountsMain.file)
  : list CountsMain.file :=
  match reports with
  | [] => []
  | report :: rest =>
      if writable (reportPath report) then report :: writtenBefore writable rest else []
  end.

(** ** A sample run *)

Definition sample_env : gmap string string :=
  list_to_map [("MONGODB_URI", "mongodb://db"); ("MONGODB_DB_NAME", "logs");
               ("START_TIMESTAMP", "1740178800"); ("END_TIMESTAMP", "1740265200");
               ("BNB_RPC_URL", "https://bnb"); ("MAINNET_RPC_URL", "https://eth");
               ("BNBTESTNET_RPC_URL", "https://bnbt");
               ("HOLESKY_RPC_URL", "https://holesky")].

(** A database that holds two documents for [bnb], none for [mainnet],
    and fails on the other chains. *)
Definition sample_database : database :=
  fun chain =>
    if String.eqb chain "bnb" then Some [sample_block_hashes; sample_call]
    else if String.eqb chain "mainnet" then Some []
    else None.

Definition sample_network : network := fun _ => sample_provider.

(** * Properties *)

(** ** The script on the sample records *)

Example block_full_counts :
  let a := agg (fst (Counts.processDocument 0 failing_provider
                       (World [sample_block_full] (Counts.Aggregate [] ∅) []))) in
  Counts.uniqueAddresses a = ["0xa"; "0xb"]
  /\ Counts.addressCounts a !! "0xa" = Some (Num 2)
  /\ Counts.addressCounts a !! "0xb" = Some (Num 1).
Proof. split_and!; vm_compute; reflexivity. Qed.

Example block_full_twice :
  let docs := [sample_block_full; sample_block_full] in
  let w := fst (Single.extractFromAddresses failing_provider (World docs ∅ [])) in
  agg w !! "0xa" = Some 4 /\ agg w !! "0xb" = Some 2 /\ size (agg w) = 2.
Proof. split_and!; vm_compute; reflexivity. Qed.

Example block_hashes_one_resolved :
  Index.extractFromAddresses sample_provider (World [sample_block_hashes] [] [])
  = (World [sample_block_hashes] ["0xc"] [VStr "0xh1"; VStr "0xh2"], Ok ["0xc"]).
Proof. reflexivity. Qed.

Example call_counted_twice :
  agg (fst (Single.processDocument 0 failing_provider (World [sample_call] ∅ [])))
  !! "0xabc" = Some 2.
Proof. vm_compute. reflexivity. Qed.

(** ** Relations kept by every step of a computation *)

Section Steps.
Context {Agg : Type}.
Variable R : world Agg -> world Agg -> Prop.
Hypothesis R_refl : forall w, R w w.
Hypothesis R_trans : forall a b c, R a b -> R b c -> R a c.

#[local] Abbreviation keeps := (steps R).

Lemma steps_ret {A} (a : A) : keeps (mret a).
Proof. intros w. apply R_refl. Qed.

Lemma steps_skip : keeps skip.
Proof. apply steps_ret. Qed.

Lemma steps_eval {A} (o : outcome A) : keeps (eval o).
Proof. intros w. apply R_refl. Qed.

Lemma steps_deref doc : keeps (deref doc).
Proof. intros w. apply R_refl. Qed.

Lemma steps_bind {A B} (m : M Agg A) (f : A -> M Agg B) :
  keeps m -> (forall a, keeps (f a)) -> keeps (m ≫= f).
Proof.
  intros Hm Hf w. unfold mbind, M_bind.
  specialize (Hm w). destruct (m w) as [w' [a|e]]; simpl in *.
  - eapply R_trans; [exact Hm | apply Hf].
  - exact Hm.
Qed.

Lemma steps_try_catch {A} (body : M Agg A) handler :
  keeps body -> (forall e, keeps (handler e)) -> keeps (try_catch body handler).
Proof.
  intros Hb Hh w. unfold try_catch.
  specialize (Hb w). destruct (body w) as [w' [a|e]]; simpl in *.
  - exact Hb.
  - eapply R_trans; [exact Hb | apply Hh].
Qed.

Lemma steps_for_of {A} (xs : list A) body :
  (forall x, keeps (body x)) -> keeps (for_of xs body).
Proof.
  intros Hb. induction xs as [|x xs IH]; simpl.
  - apply steps_skip.
  - apply steps_bind; auto.
Qed.

Variable addAddress : value -> Agg -> Agg * outcome unit.
Hypothesis steps_addAddress : forall v, keeps (update (addAddress v)).

Ltac step :=
  repeat first
    [ apply steps_skip | apply steps_ret | apply steps_eval | apply steps_deref
    | apply steps_addAddress
    | apply steps_for_of; intros
    | apply steps_try_catch; intros
    | apply steps_bind; [|intros]
    | match goal with |- keeps (if ?c then _ else _) => destruct c end
    | match goal with |- keeps (match ?c with _ => _ end) => destruct c end ].

Lemma steps_countMethod doc : keeps (countMethod doc).
Proof. unfold countMethod. step. Qed.

Lemma steps_addSender tx : keeps (addSender addAddress tx).
Proof. unfold addSender. step. Qed.

Lemma steps_addParamSender param : keeps (addParamSender addAddress param).
Proof. unfold addParamSender. step. Qed.

Lemma steps_requestParams doc : keeps (requestParams addAddress doc).
Proof. unfold requestParams. step. apply steps_addParamSender. Qed.

Lemma steps_callParams doc : keeps (callParams addAddress doc).
Proof. unfold callParams. step. Qed.

Hypothesis steps_getTransaction : forall p h, keeps (getTransaction p h).

Lemma steps_resolveSender p h : keeps (resolveSender addAddress p h).
Proof. unfold resolveSender. step. apply steps_getTransaction. Qed.

Lemma steps_standardMethods doc p : keeps (standardMethods addAddress doc p).
Proof.
  unfold standardMethods, blockTransactions. step;
    first [apply steps_addSender | apply steps_getTransaction].
Qed.

Lemma steps_processDocument doc p : keeps (processDocument addAddress doc p).
Proof.
  unfold processDocument.
  apply steps_bind; [apply steps_standardMethods | intros _].
  apply steps_bind; [apply steps_requestParams | intros _].
  apply steps_callParams.
Qed.

Lemma steps_processAll p : keeps (processAll addAddress p).
Proof.
  intros w. unfold processAll. apply steps_for_of. intros doc.
  apply steps_try_catch; [apply steps_processDocument | intros; apply steps_skip].
Qed.

End Steps.


(** ** Lower-casing and the set of strings *)

Lemma lower_ascii_idemp c : lower_ascii (lower_ascii c) = lower_ascii c.
Proof. destruct c as [[] [] [] [] [] [] [] []]; reflexivity. Qed.

Lemma upperCase_lower_ascii c : upperCase (lower_ascii c) = false.
Proof. destruct c as [[] [] [] [] [] [] [] []]; reflexivity. Qed.

Lemma lower_ascii_fixed c : upperCase c = false -> lower_ascii c = c.
Proof. unfold lower_ascii. by intros ->. Qed.

Lemma toLowerCase_normalized s : normalized (toLowerCase s).
Proof.
  unfold normalized. induction s as [|c s IH]; simpl; [done|].
  constructor; [apply upperCase_lower_ascii | done].
Qed.

(** A string is normalized exactly when lower-casing leaves it as it is. *)
Lemma normalized_fixed s : normalized s <-> toLowerCase s = s.
Proof.
  split.
  - unfold normalized. induction s as [|c s IH]; simpl; [done|].
    intros [Hc Hs]%Forall_cons. by rewrite (lower_ascii_fixed _ Hc), IH.
  - intros <-. apply toLowerCase_normalized.
Qed.

Lemma sameLetter_lower_ascii c : sameLetter c (lower_ascii c).
Proof.
  destruct c as [[] [] [] [] [] [] [] []];
    first [by left | right; left; split; reflexivity].
Qed.

(** Lower-casing changes the case of letters only. *)
Lemma toLowerCase_sameAddress s : sameAddress s (toLowerCase s).
Proof.
  unfold sameAddress. induction s as [|c s IH]; simpl; constructor;
    [apply sameLetter_lower_ascii | done].
Qed.

Lemma upper_lower_shift c1 c2 :
  upperCase c1 = true -> nat_of_ascii c2 = (nat_of_ascii c1 + 32)%nat ->
  lower_ascii c1 = lower_ascii c2.
Proof.
  intros Hup Hc2.
  assert (c2 = ascii_of_nat (nat_of_ascii c1 + 32)) as ->
    by (by rewrite <- Hc2, ascii_nat_embedding).
  clear Hc2. destruct c1 as [[] [] [] [] [] [] [] []];
    first [discriminate Hup | reflexivity].
Qed.

Lemma sameLetter_fold c1 c2 : sameLetter c1 c2 -> lower_ascii c1 = lower_ascii c2.
Proof.
  intros [->|[[Hup Hc]|[Hup Hc]]]; [done | by apply upper_lower_shift |].
  symmetry. by apply upper_lower_shift.
Qed.

(** Two spellings of one address have one lower-cased form. *)
Lemma sameAddress_toLowerCase s1 s2 :
  sameAddress s1 s2 -> toLowerCase s1 = toLowerCase s2.
Proof.
  unfold sameAddress. revert s2.
  induction s1 as [|c1 s1 IH]; intros [|c2 s2]; simpl; intros H;
    [done | by apply Forall2_nil_cons_inv in H | by apply Forall2_cons_nil_inv in H |].
  apply Forall2_cons_1 in H as [Hc Hs].
  by rewrite (sameLetter_fold _ _ Hc), (IH _ Hs).
Qed.

Lemma elem_of_Set_add x y s : x ∈ Set_add y s <-> x = y \/ x ∈ s.
Proof.
  unfold Set_add. case_decide.
  - split; [auto | intros [->|]; auto].
  - rewrite elem_of_app, list_elem_of_singleton. tauto.
Qed.

Lemma NoDup_Set_add y s : NoDup s -> NoDup (Set_add y s).
Proof.
  intros Hs. unfold Set_add. case_decide; [done|].
  apply NoDup_app. split_and!; [done | | apply NoDup_singleton].
  intros x Hx Hy. apply list_elem_of_singleton in Hy. by subst.
Qed.

Lemma Set_add_elem y s : y ∈ s -> Set_add y s = s.
Proof. intros. unfold Set_add. by case_decide. Qed.

Lemma Forall_Set_add (P : string -> Prop) y s :
  P y -> Forall P s -> Forall P (Set_add y s).
Proof.
  intros Hy Hs. unfold Set_add. case_decide; [done|].
  apply Forall_app. split; [done | by constructor].
Qed.

Lemma elem_of_Set_addAll x l s : x ∈ Set_addAll s l <-> x ∈ l \/ x ∈ s.
Proof.
  unfold Set_addAll. revert s. induction l as [|a l IH]; intros s; simpl.
  - rewrite elem_of_nil. tauto.
  - rewrite IH, elem_of_Set_add, elem_of_cons. tauto.
Qed.

Lemma NoDup_Set_addAll l s : NoDup s -> NoDup (Set_addAll s l).
Proof.
  unfold Set_addAll. revert s. induction l as [|a l IH]; intros s Hs; simpl; [done|].
  by apply IH, NoDup_Set_add.
Qed.

Lemma Set_addAll_subseteq l s : l ⊆ s -> Set_addAll s l = s.
Proof.
  unfold Set_addAll. revert s. induction l as [|a l IH]; intros s Hl; simpl; [done|].
  rewrite Set_add_elem by (apply Hl; left). apply IH. intros x Hx. apply Hl. by right.
Qed.

(** ** What [update] and [getTransaction] leave alone *)

Lemma update_documents {Agg} (f : Agg -> Agg * outcome unit) w :
  documents (fst (update f w)) = documents w.
Proof. unfold update. by destruct (f (agg w)). Qed.

Lemma update_calls {Agg} (f : Agg -> Agg * outcome unit) w :
  calls (fst (update f w)) = calls w.
Proof. unfold update. by destruct (f (agg w)). Qed.

Lemma update_agg {Agg} (f : Agg -> Agg * outcome unit) w :
  agg (fst (update f w)) = fst (f (agg w)).
Proof. unfold update. by destruct (f (agg w)). Qed.

Lemma getTransaction_documents {Agg} p h (w : world Agg) :
  documents (fst (getTransaction p h w)) = documents w.
Proof. unfold getTransaction. by destruct (p _ h). Qed.

Lemma getTransaction_agg {Agg} p h (w : world Agg) :
  agg (fst (getTransaction p h w)) = agg w.
Proof. unfold getTransaction. by destruct (p _ h). Qed.

(** The documents are the same after any run of the extractor. *)
Lemma processDocument_documents {Agg} (add : value -> Agg -> Agg * outcome unit) doc p w :
  documents (fst (processDocument add doc p w)) = documents w.
Proof.
  apply (steps_processDocument (fun w w' => documents w' = documents w)); try done.
  - intros a b c Hab Hbc. congruence.
  - intros v w'. apply update_documents.
  - intros p' h w'. apply getTransaction_documents.
Qed.

Lemma processAll_documents {Agg} (add : value -> Agg -> Agg * outcome unit) p w :
  documents (fst (processAll add p w)) = documents w.
Proof.
  apply (steps_processAll (fun w w' => documents w' = documents w)); try done.
  - intros a b c Hab Hbc. congruence.
  - intros v w'. apply update_documents.
  - intros p' h w'. apply getTransaction_documents.
Qed.

(** A property of the aggregate that [addAddress] keeps is kept by the
    extractor. *)
Lemma processDocument_invariant {Agg} (P : Agg -> Prop)
    (add : value -> Agg -> Agg * outcome unit) :
  (forall v a, P a -> P (fst (add v a))) ->
  forall doc p w, P (agg w) -> P (agg (fst (processDocument add doc p w))).
Proof.
  intros Hadd doc p w.
  apply (steps_processDocument (fun w w' => P (agg w) -> P (agg w'))); auto.
  - intros v w' Hw. rewrite update_agg. by apply Hadd.
  - intros p' h w' Hw. by rewrite getTransaction_agg.
Qed.

Lemma processAll_invariant {Agg} (P : Agg -> Prop)
    (add : value -> Agg -> Agg * outcome unit) :
  (forall v a, P a -> P (fst (add v a))) ->
  forall p w, P (agg w) -> P (agg (fst (processAll add p w))).
Proof.
  intros Hadd p w.
  apply (steps_processAll (fun w w' => P (agg w) -> P (agg w'))); auto.
  - intros v w' Hw. rewrite update_agg. by apply Hadd.
  - intros p' h w' Hw. by rewrite getTransaction_agg.
Qed.

(** ** The loop over the documents *)

(** The loop never throws, and leaves the store that running the
    documents one after the other leaves, whatever their outcomes. *)
Lemma for_of_try_catch {Agg} (body : ref -> M Agg unit) l w :
  for_of l (fun doc => try_catch (body doc) (fun _ => skip)) w
  = (foldl (fun w doc => fst (body doc w)) w l, Ok tt).
Proof.
  revert w. induction l as [|doc l IH]; intros w; simpl; [done|].
  unfold mbind, M_bind, try_catch at 1.
  destruct (body doc w) as [w' [[]|e]]; simpl; apply IH.
Qed.

Lemma processAll_fold {Agg} (add : value -> Agg -> Agg * outcome unit) p w :
  processAll add p w
  = (foldl (fun w doc => fst (processDocument add doc p w)) w
       (seq 0 (length (documents w))), Ok tt).
Proof. unfold processAll. apply for_of_try_catch. Qed.

(** ** Merging the address arrays of the chains *)

Lemma mergeAddresses_app sets s :
  Index.mergeAddresses (sets ++ [s]) = Set_addAll (Index.mergeAddresses sets) s.
Proof. unfold Index.mergeAddresses. by rewrite foldl_app. Qed.

Lemma elem_of_merge_from acc sets a :
  a ∈ foldl Set_addAll acc sets <-> a ∈ acc \/ exists s, s ∈ sets /\ a ∈ s.
Proof.
  revert acc. induction sets as [|s sets IH]; intros acc; simpl.
  - split; [auto | intros [|(s & Hs & _)]; [done | by apply elem_of_nil in Hs]].
  - rewrite IH, elem_of_Set_addAll. split.
    + intros [[|]|(s' & Hs' & Ha)]; [right; exists s; split; [left|done] | by left |].
      right. exists s'. split; [by right | done].
    + intros [|(s' & Hs' & Ha)]; [by left; right |].
      apply elem_of_cons in Hs' as [->|]; [by left; left | right; eauto].
Qed.

Lemma NoDup_merge_from acc sets : NoDup acc -> NoDup (foldl Set_addAll acc sets).
Proof.
  revert acc. induction sets as [|s sets IH]; intros acc Hacc; simpl; [done|].
  by apply IH, NoDup_Set_addAll.
Qed.

Lemma Set_addAll_NoDup s l : NoDup (s ++ l) -> Set_addAll s l = s ++ l.
Proof.
  unfold Set_addAll. revert s. induction l as [|a l IH]; intros s Hnd; simpl.
  - by rewrite app_nil_r.
  - assert (a ∉ s) as Ha.
    { apply NoDup_app in Hnd as (_ & Hd & _). intros Hin. apply (Hd a Hin). left. }
    unfold Set_add at 2. rewrite decide_False by done.
    rewrite IH; [by rewrite <- app_assoc | by rewrite <- app_assoc].
Qed.

(** C7: [mergeAddresses] is an idempotent union.  The sets {0xa, 0xb} and
    {0xb, 0xc} merge into {0xa, 0xb, 0xc}; for every family of sets the
    merged output lists no address twice and holds exactly the addresses
    of the family; merging the same set a second time changes nothing, and
    neither does merging a merged output with itself. *)
Theorem mergeAddresses_idempotent_union :
  Index.mergeAddresses [["0xa"; "0xb"]; ["0xb"; "0xc"]] = ["0xa"; "0xb"; "0xc"]
  /\ (forall sets, NoDup (Index.mergeAddresses sets))
  /\ (forall sets a, a ∈ Index.mergeAddresses sets <-> exists s, s ∈ sets /\ a ∈ s)
  /\ (forall sets s,
        Index.mergeAddresses (sets ++ [s; s]) = Index.mergeAddresses (sets ++ [s]))
  /\ (forall sets,
        Index.mergeAddresses [Index.mergeAddresses sets; Index.mergeAddresses sets]
        = Index.mergeAddresses sets).
Proof.
  split_and!.
  - reflexivity.
  - intros sets. apply (NoDup_merge_from [] sets), NoDup_nil_2.
  - intros sets a. unfold Index.mergeAddresses.
    rewrite (elem_of_merge_from [] sets a), elem_of_nil. tauto.
  - intros sets s. change (sets ++ [s; s]) with (sets ++ [s] ++ [s]).
    rewrite app_assoc, mergeAddresses_app. apply Set_addAll_subseteq.
    intros x Hx. rewrite mergeAddresses_app. apply elem_of_Set_addAll. by left.
  - intros sets.
    pose proof (NoDup_merge_from [] sets NoDup_nil_2) as Hnd.
    change (foldl Set_addAll [] sets) with (Index.mergeAddresses sets) in Hnd.
    change (Index.mergeAddresses [Index.mergeAddresses sets; Index.mergeAddresses sets])
      with (Set_addAll (Set_addAll [] (Index.mergeAddresses sets))
              (Index.mergeAddresses sets)).
    rewrite (Set_addAll_NoDup [] _ Hnd). simpl.
    by apply Set_addAll_subseteq.
Qed.

(** ** [extractFromAddresses], variant by variant *)

Lemma Index_extractFromAddresses_run p w :
  Index.extractFromAddresses p w
  = let w' := fst (processAll Index.addAddress p (World (documents w) [] (calls w))) in
    (w', Ok (agg w')).
Proof.
  unfold Index.extractFromAddresses, mbind, M_bind. simpl.
  rewrite processAll_fold. reflexivity.
Qed.

Lemma Counts_extractFromAddresses_run p w :
  Counts.extractFromAddresses p w
  = let w' := fst (processAll Counts.addAddress p
                     (World (documents w)
                        (Counts.Aggregate [] (Counts.addressCounts (agg w))) (calls w))) in
    (w', Ok (Counts.uniqueAddresses (agg w'))).
Proof.
  unfold Counts.extractFromAddresses, mbind, M_bind. simpl.
  rewrite processAll_fold. reflexivity.
Qed.

(** The loop of the single-chain variant keeps what every step keeps. *)
Lemma steps_Single_processAll (R : world (gmap string nat) -> world (gmap string nat) -> Prop)
    p :
  (forall w, R w w) ->
  (forall a b c, R a b -> R b c -> R a c) ->
  (forall v, steps R (update (Single.addAddress v))) ->
  (forall p' h, steps R (getTransaction p' h)) ->
  steps R (Single.processAll p).
Proof.
  intros Hrefl Htrans Hadd Hget w. unfold Single.processAll.
  apply steps_for_of; [done..|]. intros doc.
  apply steps_try_catch; [done | | intros; by apply steps_skip].
  apply steps_bind; [done | by apply steps_countMethod | intros _].
  by apply steps_processDocument.
Qed.

Lemma Single_processAll_documents p w :
  documents (fst (Single.processAll p w)) = documents w.
Proof.
  apply (steps_Single_processAll (fun w w' => documents w' = documents w)); try done.
  - intros a b c Hab Hbc. congruence.
  - intros v w'. apply update_documents.
  - intros p' h w'. apply getTransaction_documents.
Qed.

Lemma Single_processAll_invariant (P : gmap string nat -> Prop) :
  (forall v a, P a -> P (fst (Single.addAddress v a))) ->
  forall p w, P (agg w) -> P (agg (fst (Single.processAll p w))).
Proof.
  intros Hadd p w.
  apply (steps_Single_processAll (fun w w' => P (agg w) -> P (agg w'))); auto.
  - intros v w' Hw. rewrite update_agg. by apply Hadd.
  - intros p' h w' Hw. by rewrite getTransaction_agg.
Qed.

Lemma Single_processAll_Ok p w : snd (Single.processAll p w) = Ok tt.
Proof. unfold Single.processAll. by rewrite for_of_try_catch. Qed.

Lemma Single_extractFromAddresses_run p w :
  Single.extractFromAddresses p w
  = let w' := fst (Single.processAll p (World (documents w) ∅ (calls w))) in
    (w', Ok (agg w')).
Proof.
  unfold Single.extractFromAddresses, mbind, M_bind. simpl.
  pose proof (Single_processAll_Ok p (World (documents w) ∅ (calls w))) as Hok.
  destruct (Single.processAll p _) as [w' o]. simpl in Hok. by subst o.
Qed.

(** C10: extraction never mutates the input records.  Whatever the
    closure [addAddress], the record and the resolver, the array of
    documents is the same after [processDocument] as before, whichever
    rules fire and whether or not resolver calls fail; the same holds for
    the whole run of [extractFromAddresses] in each variant. *)
Theorem records_never_mutated :
  (forall Agg (addAddress : value -> Agg -> Agg * outcome unit) doc provider w,
      documents (fst (processDocument addAddress doc provider w)) = documents w)
  /\ (forall provider w,
        documents (fst (Index.extractFromAddresses provider w)) = documents w)
  /\ (forall provider w,
        documents (fst (Counts.extractFromAddresses provider w)) = documents w)
  /\ (forall provider w,
        documents (fst (Single.extractFromAddresses provider w)) = documents w).
Proof.
  split_and!.
  - intros. apply processDocument_documents.
  - intros. rewrite Index_extractFromAddresses_run. simpl.
    by rewrite processAll_documents.
  - intros. rewrite Counts_extractFromAddresses_run. simpl.
    by rewrite processAll_documents.
  - intros. rewrite Single_extractFromAddresses_run. simpl.
    by rewrite Single_processAll_documents.
Qed.

(** ** Normalized addresses *)

Lemma Index_addAddress_normalized v a :
  Forall normalized a -> Forall normalized (fst (Index.addAddress v a)).
Proof.
  intros Ha. unfold Index.addAddress.
  destruct (truthy v); [|done].
  destruct v; simpl; try done.
  apply Forall_Set_add; [apply toLowerCase_normalized | done].
Qed.

Lemma Single_addAddress_normalized v (m : gmap string nat) :
  (forall k, k ∈ dom m -> normalized k) ->
  forall k, k ∈ dom (fst (Single.addAddress v m)) -> normalized k.
Proof.
  intros Hm k. unfold Single.addAddress.
  destruct v; simpl; auto.
  rewrite dom_insert_L, elem_of_union, elem_of_singleton.
  intros [->|]; [apply toLowerCase_normalized | auto].
Qed.

Lemma setCount_dom (c : gmap string number) k n x :
  x ∈ dom (Counts.setCount c k n) -> x = k \/ x ∈ dom c.
Proof.
  unfold Counts.setCount. destruct (String.eqb k "__proto__"); [auto|].
  rewrite dom_insert_L, elem_of_union, elem_of_singleton. tauto.
Qed.

Lemma Counts_addAddress_normalized v a :
  Counts_normalized a -> Counts_normalized (fst (Counts.addAddress v a)).
Proof.
  intros [Hu Hc]. unfold Counts.addAddress.
  destruct (truthy v); [|done].
  destruct v; simpl; try done.
  destruct (truthy (Counts.getCount _ _)); simpl; split;
    try (apply Forall_Set_add; [apply toLowerCase_normalized | done]);
    intros k [->|]%setCount_dom; auto using toLowerCase_normalized.
Qed.

Lemma Set_add_twice x s : Set_add x (Set_add x s) = Set_add x s.
Proof. apply Set_add_elem, elem_of_Set_add. by left. Qed.

Lemma sameAddress_nonempty s1 s2 :
  sameAddress s1 s2 -> s1 <> EmptyString -> s2 <> EmptyString.
Proof.
  unfold sameAddress. destruct s1, s2; try done.
  intros H. by apply Forall2_cons_nil_inv in H.
Qed.

(** C8: every address stored in the unique set or in the counts is in
    lower-cased form: it holds no upper-case letter.  Each variant of
    [processDocument] keeps the property, and the aggregate
    [extractFromAddresses] builds has it.  The raw casing is dropped at
    the moment of discovery: the one entry [addAddress] inserts or
    increments for a raw string is a string without upper-case letters
    that differs from the raw one in the case of letters only, so two
    spellings of an address end up in one entry. *)
Theorem stored_addresses_normalized :
  (forall doc provider w,
      Forall normalized (agg w) ->
      Forall normalized (agg (fst (Index.processDocument doc provider w))))
  /\ (forall provider w,
        Forall normalized (agg (fst (Index.extractFromAddresses provider w))))
  /\ (forall doc provider w,
        Counts_normalized (agg w) ->
        Counts_normalized (agg (fst (Counts.processDocument doc provider w))))
  /\ (forall provider w,
        Counts_normalized (agg w) ->
        Counts_normalized (agg (fst (Counts.extractFromAddresses provider w))))
  /\ (forall doc provider (w : world (gmap string nat)),
        (forall k, k ∈ dom (agg w) -> normalized k) ->
        forall k, k ∈ dom (agg (fst (Single.processDocument doc provider w))) ->
                  normalized k)
  /\ (forall provider w k,
        k ∈ dom (agg (fst (Single.extractFromAddresses provider w))) -> normalized k)
  /\ (forall s,
        s <> EmptyString ->
        exists t,
          normalized t /\ sameAddress s t
          /\ (forall a, Index.addAddress (VStr s) a = (Set_add t a, Ok tt))
          /\ (forall a,
                Counts.uniqueAddresses (fst (Counts.addAddress (VStr s) a))
                = Set_add t (Counts.uniqueAddresses a)
                /\ forall k, k <> t ->
                      Counts.addressCounts (fst (Counts.addAddress (VStr s) a)) !! k
                      = Counts.addressCounts a !! k)
          /\ (forall m,
                is_Some (fst (Single.addAddress (VStr s) m) !! t)
                /\ forall k, k <> t ->
                      fst (Single.addAddress (VStr s) m) !! k = m !! k))
  /\ (forall s1 s2,
        s1 <> EmptyString -> sameAddress s1 s2 ->
        (forall a, fst (Index.addAddress (VStr s2) (fst (Index.addAddress (VStr s1) a)))
                   = fst (Index.addAddress (VStr s1) a))
        /\ (forall m, dom (fst (Single.addAddress (VStr s2)
                                  (fst (Single.addAddress (VStr s1) m))))
                      = dom (fst (Single.addAddress (VStr s1) m)))).
Proof.
  split_and!.
  - intros doc p w.
    apply (processDocument_invariant (Forall normalized)).
    intros. by apply Index_addAddress_normalized.
  - intros p w. rewrite Index_extractFromAddresses_run. simpl.
    apply (processAll_invariant (Forall normalized)); [|by constructor].
    intros. by apply Index_addAddress_normalized.
  - intros doc p w.
    apply (processDocument_invariant Counts_normalized).
    intros. by apply Counts_addAddress_normalized.
  - intros p w [_ Hc]. rewrite Counts_extractFromAddresses_run. simpl.
    apply (processAll_invariant Counts_normalized).
    + intros. by apply Counts_addAddress_normalized.
    + split; [by constructor | done].
  - intros doc p w.
    apply (processDocument_invariant (fun m : gmap string nat =>
             forall k, k ∈ dom m -> normalized k)).
    intros. by eapply Single_addAddress_normalized.
  - intros p w. rewrite Single_extractFromAddresses_run. simpl.
    apply (Single_processAll_invariant (fun m : gmap string nat =>
             forall k, k ∈ dom m -> normalized k)).
    + intros. by eapply Single_addAddress_normalized.
    + simpl. intros k Hk. by rewrite dom_empty_L in Hk.
  - intros s Hs. exists (toLowerCase s).
    assert (truthy (VStr s) = true) as Htruthy
      by (cbn; by destruct (String.eqb_spec s EmptyString)).
    split_and!; [apply toLowerCase_normalized | apply toLowerCase_sameAddress | | |].
    + intros a. unfold Index.addAddress. by rewrite Htruthy.
    + intros a. unfold Counts.addAddress. rewrite Htruthy. cbn [call_toLowerCase].
      destruct (truthy (Counts.getCount _ _));
        cbn [fst Counts.uniqueAddresses Counts.addressCounts]; (split; [done|]);
        intros k Hk; unfold Counts.setCount;
        destruct (String.eqb _ "__proto__"); by rewrite ?lookup_insert_ne.
    + intros m. cbn [Single.addAddress call_toLowerCase fst]. split.
      * rewrite lookup_insert_eq. by eexists.
      * intros k Hk. by rewrite lookup_insert_ne.
  - intros s1 s2 Hs1 Hsame.
    pose proof (sameAddress_nonempty _ _ Hsame Hs1) as Hs2.
    assert (truthy (VStr s1) = true) as Ht1
      by (cbn; by destruct (String.eqb_spec s1 EmptyString)).
    assert (truthy (VStr s2) = true) as Ht2
      by (cbn; by destruct (String.eqb_spec s2 EmptyString)).
    split.
    + intros a. unfold Index.addAddress. rewrite Ht1, Ht2. cbn [call_toLowerCase fst].
      by rewrite <- (sameAddress_toLowerCase _ _ Hsame), Set_add_twice.
    + intros m. cbn [Single.addAddress call_toLowerCase fst].
      rewrite <- (sameAddress_toLowerCase _ _ Hsame), !dom_insert_L.
      by rewrite (assoc_L (∪)), (idemp_L (∪)).
Qed.

(** ** Reading a document *)

Lemma deref_lookup {Agg} doc d (w : world Agg) :
  documents w !! doc = Some d -> deref doc w = (w, Ok d).
Proof. intros H. unfold deref. by rewrite (nth_lookup_Some _ _ _ _ H). Qed.

Lemma member_Ok v name r :
  member v name = Ok r -> nullish v = false /\ r = prop v name.
Proof. unfold member. destruct (nullish v); [done | by intros [= <-]]. Qed.

Lemma member_prop v name : nullish v = false -> member v name = Ok (prop v name).
Proof. unfold member. by intros ->. Qed.

Lemma path_cons v name rest r :
  path v (name :: rest) = Ok r ->
  nullish v = false /\ path (prop v name) rest = Ok r.
Proof.
  simpl. unfold member. destruct (nullish v); simpl; [done | auto].
Qed.

Lemma path_optPath v names r : path v names = Ok r -> optPath v names = r.
Proof.
  revert v. induction names as [|name rest IH]; intros v; simpl.
  - by intros [= <-].
  - intros [Hv Hp]%path_cons. unfold optMember. rewrite Hv. by apply IH.
Qed.

(** ** CASE 3 and CASE 4 make no resolver call *)

Lemma params_calls {Agg} (add : value -> Agg -> Agg * outcome unit) doc w :
  calls (fst ((requestParams add doc;; callParams add doc) w)) = calls w.
Proof.
  revert w.
  apply (steps_bind (fun w w' => calls w' = calls w)); [congruence | | intros _].
  - apply steps_requestParams; [done | congruence |]. intros v w. apply update_calls.
  - apply steps_callParams; [done | congruence |]. intros v w. apply update_calls.
Qed.

Lemma processDocument_after {Agg} (add : value -> Agg -> Agg * outcome unit) doc p w w1 :
  standardMethods add doc p w = (w1, Ok tt) ->
  processDocument add doc p w = (requestParams add doc;; callParams add doc) w1.
Proof. intros H. unfold processDocument, mbind at 1, M_bind at 1. by rewrite H. Qed.

(** ** The unique set only grows *)

Lemma Index_addAddress_grows v (a : list string) : a ⊆ fst (Index.addAddress v a).
Proof.
  unfold Index.addAddress. destruct (truthy v); [|done].
  destruct v; simpl; try done.
  intros x Hx. apply elem_of_Set_add. by right.
Qed.

Lemma Index_params_grow doc (w : world (list string)) :
  agg w ⊆ agg (fst ((requestParams Index.addAddress doc;;
                      callParams Index.addAddress doc) w)).
Proof.
  revert w.
  assert (forall v, steps (fun w w' : world (list string) => agg w ⊆ agg w')
                      (update (Index.addAddress v))) as Hadd.
  { intros v w. rewrite update_agg. apply Index_addAddress_grows. }
  apply (steps_bind (fun w w' : world (list string) => agg w ⊆ agg w'));
    [by intros a b c -> | | intros _].
  - apply steps_requestParams; [done | by intros a b c -> | done].
  - apply steps_callParams; [done | by intros a b c -> | done].
Qed.

(** ** Running the rules on a document *)

Lemma optPath_nullish v names :
  nullish v = true -> nullish (optPath v names) = true.
Proof.
  revert v. induction names as [|name rest IH]; intros v Hv; simpl; [done|].
  apply IH. unfold optMember. by rewrite Hv.
Qed.

Lemma truthy_not_nullish v : truthy v = true -> nullish v = false.
Proof. by destruct v. Qed.

(** When the optional chain ends on a value, the plain chain reads it. *)
Lemma optPath_path v names :
  nullish (optPath v names) = false -> path v names = Ok (optPath v names).
Proof.
  revert v. induction names as [|name rest IH]; intros v Hv; simpl; [done|].
  destruct (nullish v) eqn:Hn.
  - simpl in Hv. rewrite (optPath_nullish (v?.name) rest) in Hv; [done|].
    unfold optMember. by rewrite Hn.
  - rewrite (member_prop _ _ Hn). simpl in *.
    unfold optMember in *. rewrite Hn in *. by apply IH.
Qed.

Lemma bind_eval_Ok {Agg A B} (a : A) (f : A -> M Agg B) w :
  (eval (Ok a) ≫= f) w = f a w.
Proof. reflexivity. Qed.

Lemma bind_deref {Agg B} doc d (f : value -> M Agg B) w :
  documents w !! doc = Some d -> (deref doc ≫= f) w = f d w.
Proof. intros H. unfold mbind, M_bind. by rewrite (deref_lookup _ _ _ H). Qed.

Section Guards.
Variables (d m : value).
Hypothesis method_d : member d "method" = Ok m.

Lemma document_not_nullish : nullish d = false.
Proof using method_d. by destruct (member_Ok _ _ _ method_d). Qed.

Lemma isBlockWithTransactions_eq :
  isBlockWithTransactions d
  = Ok ((is_string m "eth_getBlockByNumber" || is_string m "eth_getBlockByHash")
        && isArray (optPath (prop d "response") ["body"; "result"; "transactions"])).
Proof using method_d.
  unfold isBlockWithTransactions. rewrite method_d. simpl.
  destruct (_ || _); [|done].
  by rewrite (member_prop _ _ document_not_nullish).
Qed.

Lemma isSendRawTransaction_eq :
  isSendRawTransaction d
  = Ok (is_string m "eth_sendRawTransaction"
        && truthy (optPath (prop d "response") ["body"; "result"])).
Proof using method_d.
  unfold isSendRawTransaction. rewrite method_d. simpl.
  destruct (is_string _ _); [|done].
  by rewrite (member_prop _ _ document_not_nullish).
Qed.

Lemma isGetTransactionByHash_eq :
  isGetTransactionByHash d
  = Ok (is_string m "eth_getTransactionByHash"
        && truthy (optPath (prop d "response") ["body"; "result"; "from"])).
Proof using method_d.
  unfold isGetTransactionByHash. rewrite method_d. simpl.
  destruct (is_string _ _); [|done].
  by rewrite (member_prop _ _ document_not_nullish).
Qed.

Lemma isGetTransactionReceipt_eq :
  isGetTransactionReceipt d = Ok (is_string m "eth_getTransactionReceipt").
Proof using method_d. unfold isGetTransactionReceipt. by rewrite method_d. Qed.

Lemma hasParams_eq : hasParams d = Ok (truthy (params_of d)).
Proof using method_d.
  unfold hasParams. by rewrite (member_prop _ _ document_not_nullish).
Qed.

Lemma isCallWithFrom_eq :
  isCallWithFrom d
  = Ok ((is_string m "eth_call" || is_string m "eth_estimateGas")
        && truthy ((optIndex0 (params_of d))?."from")).
Proof using method_d.
  unfold isCallWithFrom. rewrite method_d. simpl.
  destruct (_ || _); [|done].
  by rewrite (member_prop _ _ document_not_nullish).
Qed.

Lemma path_response names :
  nullish (optPath (prop d "response") names) = false ->
  path d ("response" :: names) = Ok (optPath (prop d "response") names).
Proof using method_d.
  intros H. simpl. rewrite (member_prop _ _ document_not_nullish). simpl.
  by apply optPath_path.
Qed.

Lemma path_params :
  nullish (params_of d) = false ->
  path d ["request"; "body"; "params"] = Ok (params_of d).
Proof using method_d.
  intros H. cbn [path]. rewrite (member_prop _ _ document_not_nullish).
  apply (optPath_path (prop d "request") ["body"; "params"]), H.
Qed.

End Guards.

Section Run.
Context {Agg : Type}.
Variable addAddress : value -> Agg -> Agg * outcome unit.
Variables (doc : ref) (provider : resolver) (w : world Agg) (d m : value).
Hypothesis lookup_doc : documents w !! doc = Some d.
Hypothesis method_d : member d "method" = Ok m.

Lemma blockTransactions_run elems :
  optPath (prop d "response") ["body"; "result"; "transactions"] = VArr elems ->
  blockTransactions addAddress provider d w
  = if firstIsObject elems
    then for_of elems (addSender addAddress) w
    else for_of elems (resolveSender addAddress provider) w.
Proof using method_d.
  intros Htxs. unfold blockTransactions.
  rewrite (path_response d m method_d) by (by rewrite Htxs).
  rewrite bind_eval_Ok, Htxs.
  destruct elems as [|t0 rest]; [done|].
  cbn [prop elem0 positive_number firstIsObject String.eqb Ascii.eqb Bool.eqb].
  replace (0 <? Z.of_nat (length (t0 :: rest)))%Z with true
    by (symmetry; apply Z.ltb_lt; simpl; lia).
  by destruct (typeof_object t0).
Qed.

Lemma standardMethods_run :
  let response := prop d "response" in
  standardMethods addAddress doc provider w
  = if blockMethod m && isArray (optPath response ["body"; "result"; "transactions"])
    then blockTransactions addAddress provider d w
    else if is_string m "eth_sendRawTransaction"
            && truthy (optPath response ["body"; "result"])
    then resolveSender addAddress provider (optPath response ["body"; "result"]) w
    else if is_string m "eth_getTransactionByHash"
            && truthy (optPath response ["body"; "result"; "from"])
    then update (addAddress (optPath response ["body"; "result"; "from"])) w
    else if is_string m "eth_getTransactionReceipt"
    then if truthy (optIndex0 (params_of d))
         then resolveSender addAddress provider (optIndex0 (params_of d)) w
         else (w, Ok tt)
    else (w, Ok tt).
Proof using lookup_doc method_d.
  intros response. unfold standardMethods.
  rewrite (bind_deref _ _ _ _ lookup_doc).
  rewrite (isBlockWithTransactions_eq d m method_d), bind_eval_Ok.
  fold (blockMethod m). fold response.
  destruct (blockMethod m && _); [done|].
  rewrite (isSendRawTransaction_eq d m method_d), bind_eval_Ok. fold response.
  destruct (is_string m "eth_sendRawTransaction" && _) eqn:H2.
  { apply andb_prop in H2 as [_ H2].
    by rewrite (path_response d m method_d) by (by apply truthy_not_nullish). }
  rewrite (isGetTransactionByHash_eq d m method_d), bind_eval_Ok. fold response.
  destruct (is_string m "eth_getTransactionByHash" && _) eqn:H3.
  { apply andb_prop in H3 as [_ H3].
    by rewrite (path_response d m method_d) by (by apply truthy_not_nullish). }
  rewrite (isGetTransactionReceipt_eq d m method_d), bind_eval_Ok.
  destruct (is_string m "eth_getTransactionReceipt"); [|done].
  rewrite (member_prop _ _ (document_not_nullish d m method_d)), bind_eval_Ok.
  fold (params_of d). by destruct (truthy (optIndex0 (params_of d))).
Qed.

Lemma requestParams_run :
  requestParams addAddress doc w
  = match params_of d with
    | VArr elems => for_of elems (addParamSender addAddress) w
    | _ => (w, Ok tt)
    end.
Proof using lookup_doc method_d.
  unfold requestParams.
  rewrite (bind_deref _ _ _ _ lookup_doc).
  rewrite (hasParams_eq d m method_d), bind_eval_Ok.
  destruct (truthy (params_of d)) eqn:Ht.
  - rewrite (path_params d m method_d) by (by apply truthy_not_nullish).
    rewrite bind_eval_Ok. by destruct (params_of d).
  - by destruct (params_of d).
Qed.

Lemma callParams_run :
  let from := (optIndex0 (params_of d))?."from" in
  callParams addAddress doc w
  = if callMethod m && truthy from then update (addAddress from) w else (w, Ok tt).
Proof using lookup_doc method_d.
  intros from. unfold callParams.
  rewrite (bind_deref _ _ _ _ lookup_doc).
  rewrite (isCallWithFrom_eq d m method_d), bind_eval_Ok.
  fold (callMethod m). fold from.
  destruct (callMethod m && truthy from) eqn:Hc; [|done].
  apply andb_prop in Hc as [_ Hf].
  assert (nullish (optIndex0 (params_of d)) = false) as Hi.
  { destruct (nullish (optIndex0 (params_of d))) eqn:Hn; [|done].
    unfold from, optMember in Hf. by rewrite Hn in Hf. }
  assert (nullish (params_of d) = false) as Hp.
  { destruct (nullish (params_of d)) eqn:Hn; [|done].
    unfold optIndex0 in Hi. by rewrite Hn in Hi. }
  rewrite (path_params d m method_d Hp), bind_eval_Ok.
  unfold index0. rewrite Hp, bind_eval_Ok.
  subst from. unfold optIndex0 in *. rewrite Hp in *.
  rewrite (member_prop _ _ Hi), bind_eval_Ok.
  unfold optMember. by rewrite Hi.
Qed.

End Run.

(** ** Parameters that carry no sender *)

Lemma addParamSender_none {Agg} (add : value -> Agg -> Agg * outcome unit) param w :
  carriesFrom param = false -> addParamSender add param w = (w, Ok tt).
Proof.
  unfold carriesFrom, addParamSender. intros H.
  destruct (truthy param && typeof_object param) eqn:Hc; [|done].
  simpl in H. apply andb_prop in Hc as [Ht _].
  by rewrite (member_prop _ _ (truthy_not_nullish _ Ht)), bind_eval_Ok, H.
Qed.

Lemma for_of_addParamSender_none {Agg} (add : value -> Agg -> Agg * outcome unit) elems w :
  Forall (fun param => carriesFrom param = false) elems ->
  for_of elems (addParamSender add) w = (w, Ok tt).
Proof.
  induction 1 as [|param elems Hp _ IH]; [done|].
  cbn [for_of]. unfold mbind, M_bind.
  by rewrite (addParamSender_none _ _ _ Hp).
Qed.

Lemma from_of_no_carrier param :
  carriesFrom param = false -> truthy (param?."from") = false.
Proof.
  unfold carriesFrom, optMember.
  by destruct param as [| |b|n|s|elems|props|].
Qed.

Lemma first_param_no_carrier params :
  truthy params = false
  \/ (exists elems, params = VArr elems
                    /\ Forall (fun param => carriesFrom param = false) elems) ->
  truthy ((optIndex0 params)?."from") = false.
Proof.
  intros [Hf|(elems & -> & Hall)].
  - destruct params as [| |b|n|s|elems|props|]; try done.
    destruct s; [done | by destruct a as [[] [] [] [] [] [] [] []]].
  - destruct Hall as [|param elems Hp _]; [done|].
    by apply from_of_no_carrier.
Qed.

Lemma standardMethod_false m :
  standardMethod m = false ->
  blockMethod m = false
  /\ is_string m "eth_sendRawTransaction" = false
  /\ is_string m "eth_getTransactionByHash" = false
  /\ is_string m "eth_getTransactionReceipt" = false.
Proof.
  unfold standardMethod, blockMethod. intros H.
  repeat (apply orb_false_elim in H as [H ?]). split_and!; try done.
  by rewrite H.
Qed.

(** With no sender among the parameters, CASE 3 and CASE 4 do nothing. *)
Lemma params_nothing {Agg} (add : value -> Agg -> Agg * outcome unit) doc (w : world Agg) d m :
  documents w !! doc = Some d ->
  member d "method" = Ok m ->
  (truthy (params_of d) = false
   \/ exists elems, params_of d = VArr elems
                    /\ Forall (fun param => carriesFrom param = false) elems) ->
  (requestParams add doc;; callParams add doc) w = (w, Ok tt).
Proof.
  intros Hd Hm Hparams. unfold mbind, M_bind.
  assert (requestParams add doc w = (w, Ok tt)) as ->.
  { rewrite (requestParams_run _ _ _ _ _ Hd Hm).
    destruct Hparams as [Hf|(elems & -> & Hall)].
    - by destruct (params_of d).
    - by apply for_of_addParamSender_none. }
  rewrite (callParams_run _ _ _ _ _ Hd Hm). cbv zeta.
  by rewrite (first_param_no_carrier _ Hparams), andb_false_r.
Qed.

(** C6: a record that matches none of the six rules yields no finding and
    does not raise.  When the method is none of those of rules 1 to 4 and
    [request.params] is absent or an array none of whose elements is an
    object with a [from], [processDocument] returns normally and leaves the
    store as it was: nothing is added, whatever [addAddress] is, and the
    resolver is not called. *)
Theorem no_rule_no_finding {Agg} (addAddress : value -> Agg -> Agg * outcome unit)
    doc provider (w : world Agg) d m :
  documents w !! doc = Some d ->
  member d "method" = Ok m ->
  standardMethod m = false ->
  (truthy (params_of d) = false
   \/ exists elems, params_of d = VArr elems
                    /\ Forall (fun param => carriesFrom param = false) elems) ->
  processDocument addAddress doc provider w = (w, Ok tt).
Proof.
  intros Hd Hm Hstd Hparams.
  destruct (standardMethod_false _ Hstd) as (H1 & H2 & H3 & H4).
  assert (standardMethods addAddress doc provider w = (w, Ok tt)) as Hrun.
  { rewrite (standardMethods_run _ _ _ _ _ _ Hd Hm). cbv zeta.
    by rewrite H1, H2, H3, H4. }
  rewrite (processDocument_after _ _ _ _ _ Hrun).
  by eapply params_nothing.
Qed.

Lemma no_rule_no_finding_witness :
  let w := World [sample_chainId] ([] : list string) [] in
  standardMethod (VStr "eth_chainId") = false
  /\ processDocument Index.addAddress 0 failing_provider w = (w, Ok tt).
Proof.
  intros w. split; [reflexivity|].
  apply (no_rule_no_finding Index.addAddress 0 failing_provider w
           sample_chainId (VStr "eth_chainId")); [reflexivity.. |].
  right. exists []. split; [reflexivity | constructor].
Defined.

(** ** What follows the [if] / [else if] chain *)

Lemma processDocument_calls {Agg} (add : value -> Agg -> Agg * outcome unit) doc p w :
  calls (fst (processDocument add doc p w))
  = calls (fst (standardMethods add doc p w)).
Proof.
  unfold processDocument, mbind at 1, M_bind at 1.
  destruct (standardMethods add doc p w) as [w1 [[]|e]]; [|done].
  apply params_calls.
Qed.

Lemma Index_processDocument_grows doc p (w : world (list string)) :
  agg (fst (standardMethods Index.addAddress doc p w))
  ⊆ agg (fst (Index.processDocument doc p w)).
Proof.
  unfold Index.processDocument, processDocument, mbind at 1, M_bind at 1.
  destruct (standardMethods Index.addAddress doc p w) as [w1 [[]|e]]; [|done].
  apply Index_params_grow.
Qed.

Lemma truthy_VStr s : s <> EmptyString -> truthy (VStr s) = true.
Proof. intros Hs. simpl. by destruct s. Qed.

Lemma Index_addAddress_string s a :
  s <> EmptyString -> Index.addAddress (VStr s) a = (Set_add (toLowerCase s) a, Ok tt).
Proof. intros Hs. unfold Index.addAddress. by rewrite truthy_VStr. Qed.

(** C5: a record whose method is [eth_getTransactionByHash] and whose
    [response.body.result.from] is a string yields that address in
    lower-cased form: the rule adds exactly [toLowerCase] of it to the
    set, the address is in the set after the record is processed, and the
    resolver is not called for the record. *)
Theorem direct_lookup_sender_lowercased doc provider (w : world (list string)) d s :
  documents w !! doc = Some d ->
  member d "method" = Ok (VStr "eth_getTransactionByHash") ->
  path d ["response"; "body"; "result"; "from"] = Ok (VStr s) ->
  s <> EmptyString ->
  standardMethods Index.addAddress doc provider w
    = (World (documents w) (Set_add (toLowerCase s) (agg w)) (calls w), Ok tt)
  /\ toLowerCase s ∈ agg (fst (Index.processDocument doc provider w))
  /\ calls (fst (Index.processDocument doc provider w)) = calls w.
Proof.
  intros Hd Hm Hp Hs.
  assert (standardMethods Index.addAddress doc provider w
    = (World (documents w) (Set_add (toLowerCase s) (agg w)) (calls w), Ok tt)) as Hstd.
  { rewrite (standardMethods_run _ _ _ _ _ _ Hd Hm). cbv zeta.
    destruct (path_cons _ _ _ _ Hp) as [_ Hp'].
    rewrite (path_optPath _ _ _ Hp').
    rewrite truthy_VStr by done. cbn [blockMethod is_string String.eqb Ascii.eqb Bool.eqb orb andb].
    unfold update. by rewrite Index_addAddress_string. }
  split_and!; [done | |].
  - apply Index_processDocument_grows. rewrite Hstd. simpl.
    apply elem_of_Set_add. by left.
  - unfold Index.processDocument. by rewrite processDocument_calls, Hstd.
Qed.

Lemma direct_lookup_sender_lowercased_witness :
  let w := World [sample_lookup] ([] : list string) [] in
  path sample_lookup ["response"; "body"; "result"; "from"] = Ok (VStr "0xABC")
  /\ "0xabc" ∈ agg (fst (Index.processDocument 0 failing_provider w))
  /\ calls (fst (Index.processDocument 0 failing_provider w)) = [].
Proof.
  intros w. split; [reflexivity|].
  apply (direct_lookup_sender_lowercased 0 failing_provider w sample_lookup "0xABC");
    [reflexivity | reflexivity | reflexivity | discriminate].
Defined.

(** ** A call with an inline sender *)







Lemma not_inherited_not_proto k :
  Counts.Object_prototype k = VUndef -> String.eqb k "__proto__" = false.
Proof.
  unfold Counts.Object_prototype. destruct (bool_decide _); [done|].
  by destruct (String.eqb k "__proto__").
Qed.

(** Where the prototype does not answer, [addAddress] adds one to the
    count of the address. *)
Lemma succ_exact z :
  (0 <= z < Counts.maxExact)%Z -> Counts.succ (Num z) = Num (z + 1).
Proof.
  intros Hz. unfold Counts.succ, Counts.roundToDouble.
  rewrite (proj2 (Z.leb_le _ _)); [done|]. unfold Counts.maxExact in *. lia.
Qed.

Lemma Counts_addAddress_count s a :
  let k := toLowerCase s in
  let c := Counts.addressCounts a in
  s <> EmptyString ->
  Counts.Object_prototype k = VUndef ->
  (0 <= Counts_count c k < Counts.maxExact)%Z ->
  Counts.addAddress (VStr s) a
  = (Counts.Aggregate (Set_add k (Counts.uniqueAddresses a))
       (<[k := Num (Counts_count c k + 1)]> c), Ok tt).
Proof.
  intros k c Hs Hproto Hc. unfold Counts.addAddress.
  rewrite (truthy_VStr _ Hs). cbn [call_toLowerCase]. fold k c.
  unfold Counts.setCount. rewrite (not_inherited_not_proto _ Hproto).
  unfold Counts.getCount, Counts_count in *.
  destruct (c !! k) as [[|z]|] eqn:Hk.
  - done.
  - cbn [truthy Counts.toNumber].
    destruct (Z.eqb_spec z 0) as [->|Hz]; [done|]. cbn [negb].
    by rewrite (succ_exact _ Hc).
  - by rewrite Hproto.
Qed.

Lemma Counts_count_insert (c : gmap string number) k z :
  Counts_count (<[k := Num z]> c) k = z.
Proof. unfold Counts_count. by rewrite lookup_insert_eq. Qed.

(** Adding another address leaves the count of [k] as it is. *)
Lemma Counts_addAddress_other s k a :
  s <> EmptyString -> toLowerCase s <> k ->
  snd (Counts.addAddress (VStr s) a) = Ok tt
  /\ Counts.addressCounts (fst (Counts.addAddress (VStr s) a)) !! k
     = Counts.addressCounts a !! k.
Proof.
  intros Hs Hk. unfold Counts.addAddress.
  rewrite (truthy_VStr _ Hs). cbn [call_toLowerCase].
  destruct (truthy (Counts.getCount _ _)); cbn [fst snd Counts.addressCounts];
    (split; [done|]); unfold Counts.setCount;
    destruct (String.eqb _ "__proto__"); by rewrite ?lookup_insert_ne.
Qed.






(** ** Resolving the hashes of a block *)

Lemma resolveSender_Index p txHash (w : world (list string)) :
  resolveSender Index.addAddress p txHash w
  = (World (documents w)
       (Set_addAll (agg w) (resolvedSender (p (calls w) txHash)))
       (calls w ++ [txHash]), Ok tt).
Proof.
  unfold resolveSender, try_catch, resolvedSender, mbind, M_bind, getTransaction.
  destruct (p (calls w) txHash) as [tx|]; [|done].
  unfold optMember. destruct (nullish tx) eqn:Hn; [done|].
  rewrite (member_prop _ _ Hn).
  destruct (prop tx "from") as [| |b|n|s|elems|props|]; try done.
  - by destruct b.
  - by destruct n as [|[]].
  - by destruct s.
Qed.

Lemma for_of_resolveSender_Index p txs (w : world (list string)) :
  for_of txs (resolveSender Index.addAddress p) w
  = (World (documents w) (Set_addAll (agg w) (resolvedSenders p (calls w) txs))
       (calls w ++ txs), Ok tt).
Proof.
  revert w. induction txs as [|txHash txs IH]; intros w.
  - cbn. rewrite app_nil_r. destruct w; reflexivity.
  - cbn [for_of resolvedSenders]. unfold mbind, M_bind.
    rewrite resolveSender_Index, IH. cbn [documents agg calls].
    unfold Set_addAll. by rewrite foldl_app, <- app_assoc.
Qed.

Lemma hashes_not_objects txs :
  Forall (fun t => exists h, t = VStr h) txs -> firstIsObject txs = false.
Proof. by intros [|t txs' [h ->] _]. Qed.

(** C4: a block record whose transactions are hash strings.  Whatever the
    provider answers, the [if] / [else if] chain asks it for every hash in
    order, adds the lower-cased sender of each transaction it resolves,
    skips each hash on which it fails, and returns normally; when the
    request parameters carry no sender, this is all that processing the
    record does, and no exception escapes it. *)
Theorem block_hashes_resolved doc provider (w : world (list string)) d m txs :
  documents w !! doc = Some d ->
  member d "method" = Ok m ->
  blockMethod m = true ->
  path d ["response"; "body"; "result"; "transactions"] = Ok (VArr txs) ->
  Forall (fun t => exists h, t = VStr h) txs ->
  let w' := World (documents w)
              (Set_addAll (agg w) (resolvedSenders provider (calls w) txs))
              (calls w ++ txs) in
  standardMethods Index.addAddress doc provider w = (w', Ok tt)
  /\ ((truthy (params_of d) = false
       \/ exists elems, params_of d = VArr elems
                        /\ Forall (fun param => carriesFrom param = false) elems) ->
      Index.processDocument doc provider w = (w', Ok tt)).
Proof.
  intros Hd Hm Hb Hp Htxs w'.
  destruct (path_cons _ _ _ _ Hp) as [_ Hp'].
  pose proof (path_optPath _ _ _ Hp') as Ho.
  assert (standardMethods Index.addAddress doc provider w = (w', Ok tt)) as Hstd.
  { rewrite (standardMethods_run _ _ _ _ _ _ Hd Hm). cbv zeta.
    rewrite Hb, Ho. cbn [isArray andb].
    rewrite (blockTransactions_run _ _ _ _ _ Hm _ Ho).
    rewrite (hashes_not_objects _ Htxs).
    apply for_of_resolveSender_Index. }
  split; [done|].
  intros Hparams. unfold Index.processDocument.
  rewrite (processDocument_after _ _ _ _ _ Hstd).
  by apply (params_nothing _ _ w' d m).
Qed.

Lemma block_hashes_resolved_witness :
  let w := World [sample_block_hashes] ([] : list string) [] in
  resolvedSenders sample_provider [] [VStr "0xh1"; VStr "0xh2"] = ["0xc"]
  /\ Index.processDocument 0 sample_provider w
     = (World [sample_block_hashes] ["0xc"] [VStr "0xh1"; VStr "0xh2"], Ok tt).
Proof.
  intros w. split; [reflexivity|].
  refine (proj2 (block_hashes_resolved 0 sample_provider w sample_block_hashes
                   (VStr "eth_getBlockByNumber") [VStr "0xh1"; VStr "0xh2"]
                   _ _ _ _ _) _).
  - reflexivity.
  - reflexivity.
  - reflexivity.
  - reflexivity.
  - repeat constructor; eexists; reflexivity.
  - right. exists [VStr "0x10"; VBool false]. split; [reflexivity | repeat constructor].
Defined.

(** ** The two branches of CASE 1 *)

Lemma for_of_app {Agg A} (l1 l2 : list A) (body : A -> M Agg unit) w :
  for_of (l1 ++ l2) body w = (for_of l1 body;; for_of l2 body) w.
Proof.
  revert w. induction l1 as [|x l1 IH]; intros w; [done|].
  cbn [app for_of]. unfold mbind, M_bind.
  destruct (body x w) as [w' [[]|e]]; [|done].
  by rewrite IH.
Qed.

Lemma addSender_string {Agg} (add : value -> Agg -> Agg * outcome unit) h w :
  addSender add (VStr h) w = (w, Ok tt).
Proof. reflexivity. Qed.

Lemma for_of_addSender_calls {Agg} (add : value -> Agg -> Agg * outcome unit) txs w :
  calls (fst (for_of txs (addSender add) w)) = calls w.
Proof.
  revert w. apply (steps_for_of (fun w w' => calls w' = calls w));
    [done | congruence |].
  intros tx. apply steps_addSender; [done | congruence |].
  intros v w. apply update_calls.
Qed.

(** C9: in a block record the choice between reading the transactions as
    objects and resolving them as hashes is made on the first element of
    the array alone.  When the first element is an object, every element
    is read as an object: the resolver is not called while the record is
    processed, and a hash string among the elements adds nothing.
    Otherwise every element goes to the resolver.  When the array is
    empty the rule adds nothing and the resolver is not called. *)
Theorem block_branch_by_first_element {Agg}
    (addAddress : value -> Agg -> Agg * outcome unit)
    doc provider (w : world Agg) d m txs :
  documents w !! doc = Some d ->
  member d "method" = Ok m ->
  blockMethod m = true ->
  path d ["response"; "body"; "result"; "transactions"] = Ok (VArr txs) ->
  (firstIsObject txs = true ->
     standardMethods addAddress doc provider w = for_of txs (addSender addAddress) w
     /\ calls (fst (processDocument addAddress doc provider w)) = calls w)
  /\ (forall before h after w',
        for_of (before ++ VStr h :: after) (addSender addAddress) w'
        = for_of (before ++ after) (addSender addAddress) w')
  /\ (firstIsObject txs = false ->
        standardMethods addAddress doc provider w
        = for_of txs (resolveSender addAddress provider) w)
  /\ (txs = [] ->
        standardMethods addAddress doc provider w = (w, Ok tt)
        /\ calls (fst (processDocument addAddress doc provider w)) = calls w).
Proof.
  intros Hd Hm Hb Hp.
  destruct (path_cons _ _ _ _ Hp) as [_ Hp'].
  pose proof (path_optPath _ _ _ Hp') as Ho.
  assert (standardMethods addAddress doc provider w
          = if firstIsObject txs
            then for_of txs (addSender addAddress) w
            else for_of txs (resolveSender addAddress provider) w) as Hstd.
  { rewrite (standardMethods_run _ _ _ _ _ _ Hd Hm). cbv zeta.
    rewrite Hb, Ho. cbn [isArray andb].
    apply (blockTransactions_run _ _ _ _ _ Hm _ Ho). }
  split_and!.
  - intros Hfirst. rewrite Hfirst in Hstd. split; [done|].
    rewrite processDocument_calls, Hstd. apply for_of_addSender_calls.
  - intros before h after w'. rewrite !for_of_app. unfold mbind, M_bind.
    destruct (for_of before (addSender addAddress) w') as [w'' [[]|e]]; [|done].
    cbn [for_of]. unfold mbind, M_bind. by rewrite addSender_string.
  - intros Hfirst. by rewrite Hfirst in Hstd.
  - intros ->. split; [done|].
    by rewrite processDocument_calls, Hstd.
Qed.

Lemma block_branch_by_first_element_witness :
  let w := World [sample_block_objects] ([] : list string) [] in
  firstIsObject [VObj [("from", VStr "0xA")]; VStr "0xh2"; VObj [("from", VStr "0xB")]]
  = true
  /\ calls (fst (processDocument Index.addAddress 0 sample_provider w)) = [].
Proof.
  intros w. split; [reflexivity|].
  refine (proj2 (proj1 (block_branch_by_first_element Index.addAddress 0 sample_provider
                          w sample_block_objects (VStr "eth_getBlockByHash")
                          [VObj [("from", VStr "0xA")]; VStr "0xh2";
                           VObj [("from", VStr "0xB")]] _ _ _ _) _));
    reflexivity.
Defined.

(** ** Which exceptions escape *)

Section Raises.
Context {Agg : Type}.
Variable P : error -> Prop.

Lemma raises_skip : raises P (@skip Agg).
Proof. by intros w e. Qed.

Lemma raises_eval {A} (o : outcome A) : raises_pure P o -> raises P (@eval Agg A o).
Proof. intros Ho w e. apply Ho. Qed.

Lemma raises_deref doc : raises P (@deref Agg doc).
Proof. by intros w e. Qed.

Lemma raises_bind {A B} (m : M Agg A) (f : A -> M Agg B) :
  raises P m -> (forall a, raises P (f a)) -> raises P (m ≫= f).
Proof.
  intros Hm Hf w e. unfold mbind, M_bind.
  specialize (Hm w). destruct (m w) as [w' [a|e']]; simpl in *.
  - apply Hf.
  - intros [= <-]. by apply Hm.
Qed.

(** A [try] with an empty [catch] lets nothing escape. *)
Lemma try_catch_skip_Ok (body : M Agg unit) w :
  snd (try_catch body (fun _ => skip) w) = Ok tt.
Proof. unfold try_catch. by destruct (body w) as [w' [[]|e]]. Qed.

Lemma raises_try_catch_skip (body : M Agg unit) :
  raises P (try_catch body (fun _ => skip)).
Proof. intros w e. by rewrite try_catch_skip_Ok. Qed.

Lemma raises_for_of {A} (xs : list A) (body : A -> M Agg unit) :
  (forall x, raises P (body x)) -> raises P (for_of xs body).
Proof.
  intros Hb. induction xs as [|x xs IH]; [apply raises_skip|].
  cbn [for_of]. by apply raises_bind.
Qed.

Hypothesis P_TypeError : P TypeError.

Lemma raises_member v name : raises_pure P (member v name).
Proof using P_TypeError.
  intros e. unfold member. destruct (nullish v); [by intros [= <-] | done].
Qed.

Lemma raises_index0 v : raises_pure P (index0 v).
Proof using P_TypeError.
  intros e. unfold index0. destruct (nullish v); [by intros [= <-] | done].
Qed.

Lemma raises_iterate v : raises_pure P (iterate v).
Proof using P_TypeError. intros e. destruct v; simpl; by try intros [= <-]. Qed.

Lemma raises_pure_bind {A B} (o : outcome A) (f : A -> outcome B) :
  raises_pure P o -> (forall a, raises_pure P (f a)) -> raises_pure P (o ≫= f).
Proof.
  intros Ho Hf e. destruct o as [a|e']; simpl; [apply Hf|].
  intros [= <-]. by apply Ho.
Qed.

Lemma raises_pure_ret {A} (a : A) : raises_pure P (mret a).
Proof. by intros e. Qed.

Lemma raises_path names v : raises_pure P (path v names).
Proof using P_TypeError.
  revert v. induction names as [|name rest IH]; intros v; simpl; [done|].
  apply raises_pure_bind; [apply raises_member | done].
Qed.

Variable addAddress : value -> Agg -> Agg * outcome unit.
Hypothesis raises_addAddress : forall v, raises P (update (addAddress v)).

Ltac esc :=
  repeat first
    [ apply raises_skip | apply raises_deref | apply raises_addAddress
    | apply raises_try_catch_skip
    | apply raises_member | apply raises_index0 | apply raises_iterate
    | apply raises_path | apply raises_pure_ret
    | apply raises_eval
    | apply raises_pure_bind; [|intros]
    | apply raises_for_of; intros
    | apply raises_bind; [|intros]
    | match goal with |- raises _ (if ?c then _ else _) => destruct c end
    | match goal with |- raises_pure _ (if ?c then _ else _) => destruct c end ].

Lemma raises_processDocument doc p : raises P (processDocument addAddress doc p).
Proof using P_TypeError raises_addAddress.
  unfold processDocument, standardMethods, requestParams, callParams,
    blockTransactions, resolveSender, addSender, addParamSender,
    isBlockWithTransactions, isSendRawTransaction, isGetTransactionByHash,
    isGetTransactionReceipt, hasParams, isCallWithFrom.
  esc.
Qed.

End Raises.

(** ** Containment of exceptions *)

Lemma Index_addAddress_raises v :
  raises (fun e => e = TypeError) (update (Index.addAddress v)).
Proof.
  intros w e. unfold update, Index.addAddress.
  destruct (truthy v); [|done].
  destruct v; simpl; by try intros [= <-].
Qed.

Lemma Index_processDocument_outcome doc p (w : world (list string)) :
  snd (Index.processDocument doc p w) = Ok tt
  \/ snd (Index.processDocument doc p w) = Throw TypeError.
Proof.
  pose proof (raises_processDocument (fun e => e = TypeError) eq_refl
                Index.addAddress Index_addAddress_raises doc p w) as H.
  unfold Index.processDocument.
  destruct (snd (processDocument Index.addAddress doc p w)) as [[]|e]; [by left|].
  right. f_equal. by apply H.
Qed.

Lemma Index_processDocument_keeps doc p (w : world (list string)) :
  agg w ⊆ agg (fst (Index.processDocument doc p w)).
Proof.
  revert w.
  apply (steps_processDocument (fun w w' : world (list string) => agg w ⊆ agg w'));
    [done | by intros a b c -> | |].
  - intros v w. rewrite update_agg. apply Index_addAddress_grows.
  - intros p' h w. by rewrite getTransaction_agg.
Qed.

(** C1, as the script has it: an exception is contained at the resolver
    call or at the record.  The [try] around a resolver call lets nothing
    escape, so a resolver failure never ends the evaluation of a record:
    the only exception [processDocument] can end with is a TypeError.
    Such an exception ends the evaluation of that record alone: the
    addresses already in the set stay, the loop goes on to the following
    records from the store the failed record left, and
    [extractFromAddresses] returns normally.  A block whose transaction is
    [null] followed by a call with a sender yields that sender. *)
Theorem exceptions_contained :
  (forall Agg (addAddress : value -> Agg -> Agg * outcome unit) provider txHash w,
      snd (resolveSender addAddress provider txHash w) = Ok tt)
  /\ (forall doc provider w,
        snd (Index.processDocument doc provider w) = Ok tt
        \/ snd (Index.processDocument doc provider w) = Throw TypeError)
  /\ (forall doc provider w, agg w ⊆ agg (fst (Index.processDocument doc provider w)))
  /\ (forall Agg (addAddress : value -> Agg -> Agg * outcome unit) provider w,
        processAll addAddress provider w
        = (foldl (fun w doc => fst (processDocument addAddress doc provider w)) w
             (seq 0 (length (documents w))), Ok tt))
  /\ (forall provider w,
        snd (Index.extractFromAddresses provider w)
        = Ok (agg (fst (Index.extractFromAddresses provider w))))
  /\ snd (Index.extractFromAddresses failing_provider
            (World [sample_block_null; sample_call] [] []))
     = Ok ["0xabc"].
Proof.
  split_and!.
  - intros. apply try_catch_skip_Ok.
  - apply Index_processDocument_outcome.
  - apply Index_processDocument_keeps.
  - intros. apply processAll_fold.
  - intros. by rewrite Index_extractFromAddresses_run.
  - reflexivity.
Qed.

(** C1 fails as stated: in a block record whose transactions array holds
    [null], reading [tx.from] throws inside CASE 1 and the exception leaves
    [processDocument]; CASE 3, which on its own finds the sender 0xa among
    the request parameters of the same record, is not evaluated, and the
    record contributes nothing. *)
Lemma rule_error_skips_remaining_rules :
  let w := World [sample_block_null] ([] : list string) [] in
  Index.processDocument 0 failing_provider w = (w, Throw TypeError)
  /\ requestParams Index.addAddress 0 w
     = (World [sample_block_null] ["0xa"] [], Ok tt)
  /\ snd (Index.extractFromAddresses failing_provider w) = Ok [].
Proof. split_and!; reflexivity. Qed.

(** ** Counting *)

(** The single-chain variant counts every addition: after adding the
    strings of a list, the count of an address is the number of strings
    that lower-case to it. *)
Lemma Single_counts_additions (added : list string) (m0 : gmap string nat) a :
  foldl (fun m s => fst (Single.addAddress (VStr s) m)) m0 added !! a
  = if decide (additions a added = 0) then m0 !! a
    else Some (default 0 (m0 !! a) + additions a added).
Proof.
  revert m0. unfold additions.
  induction added as [|s added IH]; intros m0; [done|].
  cbn [foldl Single.addAddress call_toLowerCase fst]. rewrite IH.
  rewrite filter_cons. destruct (decide (toLowerCase s = a)) as [->|Hne].
  - rewrite lookup_insert_eq. cbn [length default id].
    generalize (length (filter (fun s0 => toLowerCase s0 = a) added)).
    intros [|n]; [done|].
    rewrite !decide_False by done. f_equal. lia.
  - by rewrite lookup_insert_ne.
Qed.

(** C2 fails in the counting variant: its counts object inherits
    [constructor] from [Object.prototype], so the first addition of an
    address that lower-cases to that name finds a function where it looks
    for a count, and [++] stores NaN; the second addition then starts the
    count at 1.  The single-chain variant, which counts in a [Map], gives
    1 after one addition. *)
Theorem constructor_count_not_a_number :
  let a0 := Counts.Aggregate [] ∅ in
  let a1 := fst (Counts.addAddress (VStr "Constructor") a0) in
  let a2 := fst (Counts.addAddress (VStr "Constructor") a1) in
  Counts.addressCounts a1 !! "constructor" = Some NaN
  /\ Counts.addressCounts a2 !! "constructor" = Some (Num 1)
  /\ Counts.addressCounts
       (agg (fst (Counts.processDocument 0 failing_provider
                    (World [sample_constructor] a0 []))))
       !! "constructor" = Some NaN
  /\ fst (Single.addAddress (VStr "Constructor") ∅) !! "constructor" = Some 1.
Proof. split_and!; vm_compute; reflexivity. Qed.

Lemma stored_addresses_normalized_witness :
  let w := World [sample_call] ["0xa"] [] in
  Forall normalized (agg w)
  /\ agg (fst (Index.processDocument 0 failing_provider w)) = ["0xa"; "0xabc"]
  /\ Forall normalized (agg (fst (Index.processDocument 0 failing_provider w))).
Proof.
  intros w. split_and!; [repeat constructor | reflexivity |].
  apply (proj1 stored_addresses_normalized 0 failing_provider w).
  repeat constructor.
Defined.

(** * Further properties of the script *)

(** ** Configuration and providers *)

Lemma upper_lower_ascii c : upper_ascii (lower_ascii c) = upper_ascii c.
Proof. destruct c as [[] [] [] [] [] [] [] []]; reflexivity. Qed.

Lemma toUpperCase_toLowerCase s : toUpperCase (toLowerCase s) = toUpperCase s.
Proof.
  induction s as [|c s IH]; simpl; [done|]. by rewrite upper_lower_ascii, IH.
Qed.

Lemma truthy_env_value env name :
  truthy (env_value env name) = true
  <-> exists s, env !! name = Some s /\ s <> EmptyString.
Proof.
  unfold env_value. destruct (env !! name) as [s|]; simpl.
  - split.
    + intros H. exists s. split; [done|]. intros ->. done.
    + intros (s' & [= <-] & Hs). by destruct s.
  - split; [done | by intros (s & ? & _)].
Qed.

Lemma missing_none env vars :
  (0 <? length (missing env vars))%nat = false
  <-> Forall (fun name => truthy (env_value env name) = true) vars.
Proof.
  unfold missing. induction vars as [|name vars IH]; simpl.
  - split; [constructor | done].
  - destruct (truthy (env_value env name)) eqn:Ht; simpl.
    + rewrite IH. split; [by constructor | by inversion 1].
    + split; [done | inversion 1; congruence].
Qed.

Lemma validateConfig_cases env :
  (Config.validateConfig env = Running
   <-> Forall (fun name => exists s, env !! name = Some s /\ s <> EmptyString)
         ["MONGODB_URI"; "MONGODB_DB_NAME"; "START_TIMESTAMP";
          "BNB_RPC_URL"; "MAINNET_RPC_URL"; "BNBTESTNET_RPC_URL"; "HOLESKY_RPC_URL"])
  /\ (Config.validateConfig env = Running \/ Config.validateConfig env = Exited 1).
Proof.
  unfold Config.validateConfig.
  destruct (0 <? length (missing env Config.requiredVars))%nat eqn:H1;
    [|destruct (0 <? length (missing env (rpcUrlVar <$> Config.ALL_CHAINS)))%nat eqn:H2].
  - split; [|by right]. split; [done|]. intros Hall.
    assert ((0 <? length (missing env Config.requiredVars))%nat = false) as Hn; [|congruence].
    apply missing_none. unfold Config.requiredVars.
    repeat (apply Forall_cons_1 in Hall as [?%truthy_env_value Hall]).
    by repeat constructor.
  - split; [|by right]. split; [done|]. intros Hall.
    assert ((0 <? length (missing env (rpcUrlVar <$> Config.ALL_CHAINS)))%nat = false)
      as Hn; [|congruence].
    apply missing_none.
    repeat (apply Forall_cons_1 in Hall as [?%truthy_env_value Hall]).
    by repeat constructor.
  - split; [|by left]. split; [|done]. intros _.
    apply missing_none in H1. apply missing_none in H2.
    unfold Config.requiredVars in H1.
    repeat (apply Forall_cons_1 in H1 as [?%truthy_env_value H1]).
    repeat (apply Forall_cons_1 in H2 as [?%truthy_env_value H2]).
    by repeat constructor.
Qed.

(** The multi-chain [validateConfig] lets the run go on exactly when the
    three required variables and the RPC URL of each of the four chains
    are set to non-empty strings; otherwise it exits with code 1. *)
Theorem validateConfig_passes_iff env :
  (Config.validateConfig env = Running
   <-> Forall (fun name => exists s, env !! name = Some s /\ s <> EmptyString)
         ["MONGODB_URI"; "MONGODB_DB_NAME"; "START_TIMESTAMP";
          "BNB_RPC_URL"; "MAINNET_RPC_URL"; "BNBTESTNET_RPC_URL"; "HOLESKY_RPC_URL"])
  /\ (Config.validateConfig env = Running \/ Config.validateConfig env = Exited 1).
Proof. apply validateConfig_cases. Qed.

(** [config.rpc] holds, under each chain's name, the value of the
    variable [validateConfig] checks for that chain. *)
Lemma config_rpc_known env k :
  k ∈ Config.ALL_CHAINS ->
  object_get (config_rpc env) k = env_value env (rpcUrlVar k).
Proof.
  unfold Config.ALL_CHAINS. intros Hk.
  repeat (apply elem_of_cons in Hk as [->|Hk]); [reflexivity.. |].
  by apply elem_of_nil in Hk.
Qed.

Lemma rpcUrlVar_toLowerCase chain : rpcUrlVar (toLowerCase chain) = rpcUrlVar chain.
Proof. unfold rpcUrlVar. by rewrite toUpperCase_toLowerCase. Qed.

(** A chain whose lower-cased name is one of the four and whose variable
    is set gets its provider, whatever the case of its letters. *)
Lemma getRpcProvider_known env chain url :
  toLowerCase chain ∈ Config.ALL_CHAINS ->
  env !! rpcUrlVar chain = Some url -> url <> EmptyString ->
  getRpcProvider env chain = Done (VStr url).
Proof.
  intros Hk Hurl Hne. unfold getRpcProvider.
  rewrite (config_rpc_known _ _ Hk), rpcUrlVar_toLowerCase.
  unfold env_value. rewrite Hurl. by rewrite truthy_VStr.
Qed.

(** Once the multi-chain [validateConfig] has passed, [getRpcProvider]
    does not throw for any chain of [ALL_CHAINS]: it builds the provider
    from the non-empty URL of the chain's variable. *)
Theorem validated_chains_have_providers env chain :
  Config.validateConfig env = Running ->
  chain ∈ Config.ALL_CHAINS ->
  exists url, env !! rpcUrlVar chain = Some url /\ url <> EmptyString
              /\ getRpcProvider env chain = Done (VStr url).
Proof.
  intros Hv Hchain. apply validateConfig_cases in Hv.
  do 3 apply Forall_cons_1 in Hv as [_ Hv].
  assert (exists url, env !! rpcUrlVar chain = Some url /\ url <> EmptyString)
    as (url & Hurl & Hne).
  { rewrite Forall_forall in Hv. apply Hv.
    unfold Config.ALL_CHAINS in Hchain.
    repeat (apply elem_of_cons in Hchain as [->|Hchain]);
      [..|by apply elem_of_nil in Hchain];
      apply list_elem_of_In; repeat (first [left; reflexivity | right]). }
  exists url. split_and!; [done..|].
  apply getRpcProvider_known; [|done..].
  unfold Config.ALL_CHAINS in *.
  repeat (apply elem_of_cons in Hchain as [->|Hchain]);
    [..|by apply elem_of_nil in Hchain];
    apply list_elem_of_In; repeat (first [left; reflexivity | right]).
Qed.

Lemma validated_chains_have_providers_witness :
  let env : gmap string string :=
    list_to_map [("MONGODB_URI", "mongodb://db"); ("MONGODB_DB_NAME", "logs");
                 ("START_TIMESTAMP", "1740178800");
                 ("BNB_RPC_URL", "https://bnb"); ("MAINNET_RPC_URL", "https://eth");
                 ("BNBTESTNET_RPC_URL", "https://bnbt");
                 ("HOLESKY_RPC_URL", "https://holesky")] in
  Config.validateConfig env = Running
  /\ exists url, env !! rpcUrlVar "holesky" = Some url /\ url <> EmptyString
                 /\ getRpcProvider env "holesky" = Done (VStr url).
Proof.
  intros env. split; [vm_compute; reflexivity|].
  apply (validated_chains_have_providers env "holesky"); [vm_compute; reflexivity|].
  unfold Config.ALL_CHAINS. set_solver.
Defined.

Lemma config_rpc_unknown env k :
  k ∉ Config.ALL_CHAINS -> own_prop k (config_rpc env) = None.
Proof.
  unfold Config.ALL_CHAINS, config_rpc. intros Hk. cbn [own_prop].
  repeat match goal with
         | |- context [String.eqb k ?c] =>
             destruct (String.eqb_spec k c) as [->|_]; [exfalso; apply Hk; set_solver|]
         end.
  done.
Qed.



(** ** The names of the reports *)

Lemma stripCsv_length s :
  String.length (stripCsv s) = String.length s
  \/ String.length s = (String.length (stripCsv s) + 4)%nat.
Proof.
  induction s as [|c s IH]; [by left|].
  cbn [stripCsv]. destruct (String.eqb_spec (String c s) ".csv") as [Heq|_].
  - right. by rewrite Heq.
  - cbn [String.length]. destruct IH as [-> | ->]; [by left | right; lia].
Qed.

Lemma append_length a b :
  String.length (String.append a b) = (String.length a + String.length b)%nat.
Proof. induction a as [|c a IH]; simpl; [done | by rewrite IH]. Qed.

(** The three reports of the counting variant never share a file: the
    names of the statistics and counts files differ from each other and
    from the name of the addresses file, whatever [OUTPUT_FILE] is. *)
Theorem report_files_distinct output :
  statsFilename output <> countsFilename output
  /\ statsFilename output <> output
  /\ countsFilename output <> output.
Proof.
  unfold statsFilename, countsFilename.
  pose proof (stripCsv_length output) as Hlen.
  split_and!; intros Heq; apply (f_equal String.length) in Heq;
    rewrite ?append_length in Heq; simpl in Heq; lia.
Qed.

(** The suffix [.csv] is dropped where the name ends with it and the name
    is kept whole where it does not. *)
Lemma stripCsv_suffix base : stripCsv (String.append base ".csv") = base.
Proof.
  induction base as [|c base IH]; [reflexivity|].
  change (stripCsv (String.append (String c base) ".csv"))
    with (if String.eqb (String c (String.append base ".csv")) ".csv"
          then EmptyString else String c (stripCsv (String.append base ".csv"))).
  destruct (String.eqb_spec (String c (String.append base ".csv")) ".csv") as [Heq|_].
  - apply (f_equal String.length) in Heq. cbn [String.length] in Heq.
    rewrite append_length in Heq. simpl in Heq. lia.
  - by rewrite IH.
Qed.

Lemma stripCsv_cases s :
  stripCsv s = s \/ exists base, s = String.append base ".csv".
Proof.
  induction s as [|c s IH]; [by left|].
  cbn [stripCsv]. destruct (String.eqb_spec (String c s) ".csv") as [Heq|_].
  - right. by exists EmptyString.
  - destruct IH as [-> | (base & ->)]; [by left|].
    right. by exists (String c base).
Qed.

(** For an output name [base.csv] the statistics go to [base_stats.csv]
    and the counts to [base_counts.csv]; a name that does not end in
    [.csv] is kept whole and the two suffixes are appended to it. *)
Theorem report_file_names :
  (forall base,
      statsFilename (String.append base ".csv") = String.append base "_stats.csv"
      /\ countsFilename (String.append base ".csv") = String.append base "_counts.csv")
  /\ (forall output,
        (forall base, output <> String.append base ".csv") ->
        statsFilename output = String.append output "_stats.csv"
        /\ countsFilename output = String.append output "_counts.csv").
Proof.
  split.
  - intros base. unfold statsFilename, countsFilename. by rewrite stripCsv_suffix.
  - intros output Hno. unfold statsFilename, countsFilename.
    destruct (stripCsv_cases output) as [-> | (base & ->)]; [done|].
    by destruct (Hno base).
Qed.

Lemma report_file_names_witness :
  (forall base, "results" <> String.append base ".csv")
  /\ statsFilename "results" = "results_stats.csv".
Proof.
  assert (forall base, "results" <> String.append base ".csv") as Hno.
  { intros base Heq.
    assert (stripCsv "results" = base) as Hs by (rewrite Heq; apply stripCsv_suffix).
    vm_compute in Hs. subst base. discriminate Heq. }
  split; [exact Hno|].
  exact (proj1 (proj2 report_file_names "results" Hno)).
Defined.

(** ** The report of the single-chain variant *)

Lemma insertByCount_Permutation a l : SingleMain.insertByCount a l ≡ₚ a :: l.
Proof.
  induction l as [|b l IH]; [done|].
  cbn [SingleMain.insertByCount]. destruct (snd a <? snd b)%nat; [|done].
  by rewrite IH, Permutation_swap.
Qed.

Lemma sortByCount_Permutation l : SingleMain.sortByCount l ≡ₚ l.
Proof.
  unfold SingleMain.sortByCount. induction l as [|a l IH]; [done|].
  cbn [foldr]. by rewrite insertByCount_Permutation, IH.
Qed.

Lemma insertByCount_sorted a l :
  StronglySorted byCount l -> StronglySorted byCount (SingleMain.insertByCount a l).
Proof.
  induction 1 as [|b l Hl IH Hb]; cbn [SingleMain.insertByCount].
  - repeat constructor.
  - destruct (Nat.ltb_spec (snd a) (snd b)) as [Hlt|Hge].
    + constructor; [done|].
      rewrite insertByCount_Permutation. constructor; [unfold byCount; lia | done].
    + constructor; [by constructor|].
      constructor; [done|].
      eapply Forall_impl; [exact Hb|]. unfold byCount. intros c Hc. lia.
Qed.

Lemma sortByCount_sorted l : StronglySorted byCount (SingleMain.sortByCount l).
Proof.
  unfold SingleMain.sortByCount. induction l as [|a l IH]; [constructor|].
  cbn [foldr]. by apply insertByCount_sorted.
Qed.

Lemma insertByCount_filter c a l :
  filter (fun x : string * nat => snd x = c) (SingleMain.insertByCount a l)
  = filter (fun x : string * nat => snd x = c) (a :: l).
Proof.
  induction l as [|b l IH]; [done|].
  cbn [SingleMain.insertByCount]. destruct (Nat.ltb_spec (snd a) (snd b)) as [Hlt|Hge]; [|done].
  rewrite filter_cons, IH, !filter_cons.
  destruct (decide (snd b = c)), (decide (snd a = c)); try done. lia.
Qed.

Lemma sortByCount_filter c l :
  filter (fun x : string * nat => snd x = c) (SingleMain.sortByCount l)
  = filter (fun x : string * nat => snd x = c) l.
Proof.
  unfold SingleMain.sortByCount. induction l as [|a l IH]; [done|].
  cbn [foldr]. by rewrite insertByCount_filter, !filter_cons, IH.
Qed.

(** Two arrangements in non-increasing order that list the rows of each
    count in the same order are the same arrangement. *)
Lemma stable_sorted_unique (l1 l2 : list (string * nat)) :
  StronglySorted byCount l1 -> StronglySorted byCount l2 ->
  (forall c, filter (fun x : string * nat => snd x = c) l1
             = filter (fun x : string * nat => snd x = c) l2) ->
  l1 = l2.
Proof.
  intros H1. revert l2. induction H1 as [|x l1 Hs1 IH Hx]; intros l2 H2 Hf.
  - destruct l2 as [|y l2]; [done|].
    specialize (Hf (snd y)). rewrite filter_cons, decide_True in Hf by done.
    by rewrite filter_nil in Hf.
  - destruct H2 as [|y l2 Hs2 Hy].
    { specialize (Hf (snd x)). rewrite filter_cons, decide_True in Hf by done.
      by rewrite filter_nil in Hf. }
    assert (snd x = snd y) as Hxy.
    { apply Nat.le_antisymm.
      - assert (x ∈ y :: l2) as Hin.
        { apply (list_elem_of_filter (fun z : string * nat => snd z = snd x)).
          rewrite <- Hf, filter_cons, decide_True by done. left. }
        apply elem_of_cons in Hin as [->|Hin]; [done|].
        rewrite Forall_forall in Hy. apply (Hy x Hin).
      - assert (y ∈ x :: l1) as Hin.
        { apply (list_elem_of_filter (fun z : string * nat => snd z = snd y)).
          rewrite Hf, filter_cons, decide_True by done. left. }
        apply elem_of_cons in Hin as [->|Hin]; [done|].
        rewrite Forall_forall in Hx. apply (Hx y Hin). }
    pose proof (Hf (snd x)) as Hhead.
    rewrite !filter_cons, decide_True in Hhead by done.
    rewrite decide_True in Hhead by done.
    injection Hhead as -> Htail.
    f_equal. apply IH; [done|]. intros c.
    specialize (Hf c). rewrite !filter_cons in Hf.
    destruct (decide (snd y = c)); [by injection Hf | done].
Qed.

(** [writeAddressesToCsv] of the single-chain variant writes the rows it
    is given in non-increasing order of count, every row exactly once. *)
Theorem report_sorted_by_count addressData :
  StronglySorted byCount (SingleMain.sortByCount addressData)
  /\ SingleMain.sortByCount addressData ≡ₚ addressData.
Proof. split; [apply sortByCount_sorted | apply sortByCount_Permutation]. Qed.

(** Rows with the same count keep the order they had, and the report is
    the only arrangement in non-increasing order that keeps it. *)
Theorem report_sort_stable addressData :
  (forall c, filter (fun x : string * nat => snd x = c) (SingleMain.sortByCount addressData)
             = filter (fun x : string * nat => snd x = c) addressData)
  /\ (forall rows,
        StronglySorted byCount rows ->
        (forall c, filter (fun x : string * nat => snd x = c) rows
                   = filter (fun x : string * nat => snd x = c) addressData) ->
        rows = SingleMain.sortByCount addressData).
Proof.
  split; [intros c; apply sortByCount_filter|].
  intros rows Hs Hf. apply stable_sorted_unique; [done | apply sortByCount_sorted |].
  intros c. by rewrite sortByCount_filter.
Qed.

Lemma report_sort_stable_witness :
  let addressData := [("0xa", 1); ("0xb", 3); ("0xc", 1); ("0xd", 3)] in
  let rows := [("0xb", 3); ("0xd", 3); ("0xa", 1); ("0xc", 1)] in
  StronglySorted byCount rows /\ rows = SingleMain.sortByCount addressData.
Proof.
  intros addressData rows.
  assert (StronglySorted byCount rows) as Hs.
  { repeat (constructor; [|repeat constructor]). constructor. }
  split; [exact Hs|].
  apply (proj2 (report_sort_stable addressData) rows Hs).
  intros c. unfold rows, addressData. rewrite !filter_cons, !filter_nil. simpl.
  destruct (decide (3 = c)), (decide (1 = c)); try reflexivity. lia.
Defined.

(** The rows [writeAddressesToCsv] prints are the first five of the
    report, or all of them when there are fewer, and no row left out has a
    higher count than a printed one. *)
Theorem top_five_highest addressData :
  let rows := SingleMain.sortByCount addressData in
  length (SingleMain.topFive rows) = Nat.min 5 (length addressData)
  /\ forall a b, a ∈ SingleMain.topFive rows -> b ∈ drop 5 rows -> snd b <= snd a.
Proof.
  intros rows. unfold SingleMain.topFive. split.
  - rewrite length_take. unfold rows. by rewrite sortByCount_Permutation.
  - intros a b Ha Hb.
    pose proof (sortByCount_sorted addressData) as Hs. fold rows in Hs.
    rewrite <- (take_drop 5 rows) in Hs.
    apply (StronglySorted_app_1_elem_of _ _ _ a b Hs Ha Hb).
Qed.

Lemma top_five_highest_witness :
  let addressData := [("0xa", 1); ("0xb", 7); ("0xc", 2); ("0xd", 2); ("0xe", 9); ("0xf", 3)] in
  SingleMain.topFive (SingleMain.sortByCount addressData)
  = [("0xe", 9); ("0xb", 7); ("0xf", 3); ("0xc", 2); ("0xd", 2)]
  /\ snd ("0xa", 1) <= snd ("0xd", 2).
Proof.
  intros addressData. split; [reflexivity|].
  refine (proj2 (top_five_highest addressData) ("0xd", 2) ("0xa", 1) _ _).
  - do 4 right. left.
  - left.
Defined.

(** ** The rules the claims leave out *)

Lemma Index_addAddress_sender from (a : list string) :
  truthy from = true -> (exists s, from = VStr s) ->
  Index.addAddress from a = (Set_addAll a (senderOf from), Ok tt).
Proof.
  intros Ht (s & ->). unfold Index.addAddress. rewrite Ht. cbn.
  by destruct s.
Qed.

Lemma addSender_Index tx (w : world (list string)) :
  wellFormedTx tx ->
  addSender Index.addAddress tx w
  = (World (documents w) (Set_addAll (agg w) (senderOf (prop tx "from"))) (calls w),
     Ok tt).
Proof.
  intros [Hn Hfrom]. unfold addSender.
  rewrite (member_prop _ _ Hn), bind_eval_Ok.
  destruct (truthy (prop tx "from")) eqn:Ht.
  - unfold update. by rewrite (Index_addAddress_sender _ _ Ht (Hfrom eq_refl)).
  - destruct w. by destruct (prop tx "from") as [| |[]|[|z]|[|c s]|?|?|].
Qed.

Lemma for_of_addSender_Index txs (w : world (list string)) :
  Forall wellFormedTx txs ->
  for_of txs (addSender Index.addAddress) w
  = (World (documents w) (Set_addAll (agg w) (inlineSenders txs)) (calls w), Ok tt).
Proof.
  intros Hall. revert w. induction Hall as [|tx txs Htx _ IH]; intros w.
  - by destruct w.
  - cbn [for_of]. unfold mbind, M_bind. rewrite (addSender_Index _ _ Htx), IH.
    cbn [documents agg calls inlineSenders flat_map].
    unfold Set_addAll. by rewrite foldl_app.
Qed.

(** A block record with full transactions: when every element is an
    object whose [from], if set, is a string, the [if] / [else if] chain
    adds the lower-cased senders in the order of the block, calls no
    resolver and returns normally. *)
Theorem block_objects_senders doc provider (w : world (list string)) d m txs :
  documents w !! doc = Some d ->
  member d "method" = Ok m ->
  blockMethod m = true ->
  path d ["response"; "body"; "result"; "transactions"] = Ok (VArr txs) ->
  firstIsObject txs = true ->
  Forall wellFormedTx txs ->
  standardMethods Index.addAddress doc provider w
  = (World (documents w) (Set_addAll (agg w) (inlineSenders txs)) (calls w), Ok tt).
Proof.
  intros Hd Hm Hb Hp Hfirst Hall.
  destruct (path_cons _ _ _ _ Hp) as [_ Hp'].
  pose proof (path_optPath _ _ _ Hp') as Ho.
  rewrite (standardMethods_run _ _ _ _ _ _ Hd Hm). cbv zeta.
  rewrite Hb, Ho. cbn [isArray andb].
  rewrite (blockTransactions_run _ _ _ _ _ Hm _ Ho), Hfirst.
  by apply for_of_addSender_Index.
Qed.

Lemma block_objects_senders_witness :
  let w := World [sample_block_full] ([] : list string) [] in
  inlineSenders [VObj [("from", VStr "0xA")]; VObj [("from", VStr "0xB")];
                 VObj [("from", VStr "0xA")]] = ["0xa"; "0xb"; "0xa"]
  /\ standardMethods Index.addAddress 0 failing_provider w
     = (World [sample_block_full] ["0xa"; "0xb"] [], Ok tt).
Proof.
  intros w. split; [reflexivity|].
  apply (block_objects_senders 0 failing_provider w sample_block_full
           (VStr "eth_getBlockByNumber")
           [VObj [("from", VStr "0xA")]; VObj [("from", VStr "0xB")];
            VObj [("from", VStr "0xA")]]); try reflexivity.
  repeat constructor; intros _; eexists; reflexivity.
Defined.

(** A [null] or [undefined] element in a block of full transactions ends
    the evaluation of the record with a TypeError: the senders of the
    elements before it are in the set, the elements after it and the
    request parameters are not looked at. *)
Theorem block_null_element_aborts doc provider (w : world (list string)) d m
    before tx after :
  documents w !! doc = Some d ->
  member d "method" = Ok m ->
  blockMethod m = true ->
  path d ["response"; "body"; "result"; "transactions"]
  = Ok (VArr (before ++ tx :: after)) ->
  firstIsObject (before ++ tx :: after) = true ->
  Forall wellFormedTx before ->
  nullish tx = true ->
  Index.processDocument doc provider w
  = (World (documents w) (Set_addAll (agg w) (inlineSenders before)) (calls w),
     Throw TypeError).
Proof.
  intros Hd Hm Hb Hp Hfirst Hall Hnull.
  destruct (path_cons _ _ _ _ Hp) as [_ Hp'].
  pose proof (path_optPath _ _ _ Hp') as Ho.
  unfold Index.processDocument, processDocument, mbind at 1, M_bind at 1.
  rewrite (standardMethods_run _ _ _ _ _ _ Hd Hm). cbv zeta.
  rewrite Hb, Ho. cbn [isArray andb].
  rewrite (blockTransactions_run _ _ _ _ _ Hm _ Ho), Hfirst.
  rewrite for_of_app. unfold mbind at 1, M_bind at 1.
  rewrite (for_of_addSender_Index _ _ Hall).
  cbn [for_of]. unfold mbind at 1, M_bind at 1, addSender at 1, member.
  by rewrite Hnull.
Qed.

Lemma block_null_element_aborts_witness :
  let w := World [sample_block_null] ([] : list string) [] in
  nullish VNull = true
  /\ Index.processDocument 0 failing_provider w = (w, Throw TypeError).
Proof.
  intros w. split; [reflexivity|].
  apply (block_null_element_aborts 0 failing_provider w sample_block_null
           (VStr "eth_getBlockByNumber") [] VNull []); try reflexivity.
  constructor.
Defined.

(** A record of [eth_sendRawTransaction]: when [response.body.result]
    is set, the chain asks the resolver for that one hash, adds the sender
    of the transaction it returns, if any, and returns normally whether or
    not the resolver fails; when the result is not set, the chain does
    nothing.  With no sender among the request parameters this is all that
    processing the record does. *)
Theorem raw_transaction_sender doc provider (w : world (list string)) d :
  documents w !! doc = Some d ->
  member d "method" = Ok (VStr "eth_sendRawTransaction") ->
  let txHash := optPath (prop d "response") ["body"; "result"] in
  let w' := if truthy txHash
            then World (documents w)
                   (Set_addAll (agg w) (resolvedSender (provider (calls w) txHash)))
                   (calls w ++ [txHash])
            else w in
  standardMethods Index.addAddress doc provider w = (w', Ok tt)
  /\ ((truthy (params_of d) = false
       \/ exists elems, params_of d = VArr elems
                        /\ Forall (fun param => carriesFrom param = false) elems) ->
      Index.processDocument doc provider w = (w', Ok tt)).
Proof.
  intros Hd Hm txHash w'.
  assert (standardMethods Index.addAddress doc provider w = (w', Ok tt)) as Hstd.
  { rewrite (standardMethods_run _ _ _ _ _ _ Hd Hm). cbv zeta. fold txHash.
    cbn [blockMethod is_string String.eqb Ascii.eqb Bool.eqb orb andb].
    unfold w'. destruct (truthy txHash); [apply resolveSender_Index | done]. }
  split; [done|]. intros Hparams. unfold Index.processDocument.
  rewrite (processDocument_after _ _ _ _ _ Hstd).
  apply (params_nothing _ _ w' d (VStr "eth_sendRawTransaction")); [|done..].
  unfold w'. by destruct (truthy txHash).
Qed.

Lemma raw_transaction_sender_witness :
  let d := VObj [("method", VStr "eth_sendRawTransaction");
                 response_with (VStr "0xh1")] in
  let w := World [d] ([] : list string) [] in
  member d "method" = Ok (VStr "eth_sendRawTransaction")
  /\ standardMethods Index.addAddress 0 sample_provider w
     = (World [d] ["0xc"] [VStr "0xh1"], Ok tt).
Proof.
  intros d w. split; [reflexivity|].
  apply (proj1 (raw_transaction_sender 0 sample_provider w d eq_refl eq_refl)).
Defined.

(** A record of [eth_getTransactionReceipt]: the hash is the first request
    parameter.  When it is set, the chain asks the resolver for it, adds
    the sender of the transaction it returns, if any, and returns normally
    whether or not the resolver fails; when it is not set, the chain does
    nothing.  With no sender among the request parameters this is all that
    processing the record does. *)
Theorem receipt_sender doc provider (w : world (list string)) d :
  documents w !! doc = Some d ->
  member d "method" = Ok (VStr "eth_getTransactionReceipt") ->
  let txHash := optIndex0 (params_of d) in
  let w' := if truthy txHash
            then World (documents w)
                   (Set_addAll (agg w) (resolvedSender (provider (calls w) txHash)))
                   (calls w ++ [txHash])
            else w in
  standardMethods Index.addAddress doc provider w = (w', Ok tt)
  /\ ((truthy (params_of d) = false
       \/ exists elems, params_of d = VArr elems
                        /\ Forall (fun param => carriesFrom param = false) elems) ->
      Index.processDocument doc provider w = (w', Ok tt)).
Proof.
  intros Hd Hm txHash w'.
  assert (standardMethods Index.addAddress doc provider w = (w', Ok tt)) as Hstd.
  { rewrite (standardMethods_run _ _ _ _ _ _ Hd Hm). cbv zeta. fold txHash.
    cbn [blockMethod is_string String.eqb Ascii.eqb Bool.eqb orb andb].
    unfold w'. destruct (truthy txHash); [apply resolveSender_Index | done]. }
  split; [done|]. intros Hparams. unfold Index.processDocument.
  rewrite (processDocument_after _ _ _ _ _ Hstd).
  apply (params_nothing _ _ w' d (VStr "eth_getTransactionReceipt")); [|done..].
  unfold w'. by destruct (truthy txHash).
Qed.

Lemma receipt_sender_witness :
  let d := VObj [("method", VStr "eth_getTransactionReceipt");
                 request_with [VStr "0xh1"]] in
  let w := World [d] ([] : list string) [] in
  member d "method" = Ok (VStr "eth_getTransactionReceipt")
  /\ standardMethods Index.addAddress 0 sample_provider w
     = (World [d] ["0xc"] [VStr "0xh1"], Ok tt).
Proof.
  intros d w. split; [reflexivity|].
  apply (proj1 (receipt_sender 0 sample_provider w d eq_refl eq_refl)).
Defined.

(** Only block records, raw submissions and receipt lookups reach the
    resolver: for a record of any other method, the log of resolver calls
    is the same after [processDocument] as before, whatever [addAddress]
    is and whether or not the record ends with an exception. *)
Theorem other_methods_never_resolve {Agg} (addAddress : value -> Agg -> Agg * outcome unit)
    doc provider (w : world Agg) d m :
  documents w !! doc = Some d ->
  member d "method" = Ok m ->
  blockMethod m = false ->
  is_string m "eth_sendRawTransaction" = false ->
  is_string m "eth_getTransactionReceipt" = false ->
  calls (fst (processDocument addAddress doc provider w)) = calls w.
Proof.
  intros Hd Hm Hb Hs Hr.
  rewrite processDocument_calls, (standardMethods_run _ _ _ _ _ _ Hd Hm). cbv zeta.
  rewrite Hb, Hs, Hr. cbn [andb].
  destruct (_ && _); [apply update_calls | done].
Qed.

Lemma other_methods_never_resolve_witness :
  let w := World [sample_lookup] ([] : list string) [VStr "0xh0"] in
  blockMethod (VStr "eth_getTransactionByHash") = false
  /\ calls (fst (processDocument Index.addAddress 0 sample_provider w)) = [VStr "0xh0"].
Proof.
  intros w. split; [reflexivity|].
  apply (other_methods_never_resolve Index.addAddress 0 sample_provider w sample_lookup
           (VStr "eth_getTransactionByHash")); reflexivity.
Defined.

(** ** Invariants of the aggregates *)

Lemma Index_addAddress_NoDup v (a : list string) :
  NoDup a -> NoDup (fst (Index.addAddress v a)).
Proof.
  intros Ha. unfold Index.addAddress. destruct (truthy v); [|done].
  destruct v; simpl; try done. by apply NoDup_Set_add.
Qed.

Lemma Counts_addAddress_NoDup v a :
  NoDup (Counts.uniqueAddresses a) ->
  NoDup (Counts.uniqueAddresses (fst (Counts.addAddress v a))).
Proof.
  intros Ha. unfold Counts.addAddress. destruct (truthy v); [|done].
  destruct v; simpl; try done.
  destruct (truthy (Counts.getCount _ _)); by apply NoDup_Set_add.
Qed.

(** The array [extractFromAddresses] returns lists no address twice, in
    [index.js] and in the counting variant, and processing a record keeps
    a set without duplicates so. *)
Theorem extracted_addresses_unique :
  (forall provider w,
      snd (Index.extractFromAddresses provider w)
      = Ok (agg (fst (Index.extractFromAddresses provider w)))
      /\ NoDup (agg (fst (Index.extractFromAddresses provider w))))
  /\ (forall provider w,
        snd (Counts.extractFromAddresses provider w)
        = Ok (Counts.uniqueAddresses (agg (fst (Counts.extractFromAddresses provider w))))
        /\ NoDup (Counts.uniqueAddresses
                    (agg (fst (Counts.extractFromAddresses provider w)))))
  /\ (forall doc provider w,
        NoDup (agg w) -> NoDup (agg (fst (Index.processDocument doc provider w)))).
Proof.
  split_and!.
  - intros p w. rewrite Index_extractFromAddresses_run. cbn [fst snd]. split; [done|].
    apply (processAll_invariant (fun a : list string => NoDup a));
      [intros; by apply Index_addAddress_NoDup | apply NoDup_nil_2].
  - intros p w. rewrite Counts_extractFromAddresses_run. cbn [fst snd]. split; [done|].
    apply (processAll_invariant (fun a => NoDup (Counts.uniqueAddresses a)));
      [intros; by apply Counts_addAddress_NoDup | apply NoDup_nil_2].
  - intros doc p w.
    apply (processDocument_invariant (fun a : list string => NoDup a)).
    intros. by apply Index_addAddress_NoDup.
Qed.

Lemma extracted_addresses_unique_witness :
  NoDup (agg (fst (Index.processDocument 0 sample_provider (World [sample_call] [] [])))).
Proof.
  refine (proj2 (proj2 extracted_addresses_unique) 0 sample_provider
            (World [sample_call] [] []) _).
  apply NoDup_nil_2.
Defined.

Lemma Single_addAddress_positive v (m : gmap string nat) :
  map_Forall (fun _ n => 0 < n) m ->
  map_Forall (fun _ n => 0 < n) (fst (Single.addAddress v m)).
Proof.
  intros Hm. unfold Single.addAddress. destruct v; simpl; try done.
  apply map_Forall_insert_2; [lia | done].
Qed.

(** In the single-chain variant every count is a positive integer: the
    map [extractFromAddresses] returns holds no zero, and processing a
    record keeps a map of positive counts so. *)
Theorem single_counts_positive :
  (forall provider w k n,
      agg (fst (Single.extractFromAddresses provider w)) !! k = Some n -> 0 < n)
  /\ (forall doc provider (w : world (gmap string nat)),
        map_Forall (fun _ n => 0 < n) (agg w) ->
        map_Forall (fun _ n => 0 < n) (agg (fst (Single.processDocument doc provider w)))).
Proof.
  split.
  - intros p w k n. rewrite Single_extractFromAddresses_run. cbn [fst].
    apply (Single_processAll_invariant
             (fun m : gmap string nat => map_Forall (fun _ n => 0 < n) m));
      [intros; by apply Single_addAddress_positive|].
    apply map_Forall_empty.
  - intros doc p w.
    apply (processDocument_invariant
             (fun m : gmap string nat => map_Forall (fun _ n => 0 < n) m)).
    intros. by apply Single_addAddress_positive.
Qed.

Lemma single_counts_positive_witness :
  agg (fst (Single.processDocument 0 sample_provider (World [sample_call] ∅ [])))
  <> ∅
  /\ map_Forall (fun _ n => 0 < n)
       (agg (fst (Single.processDocument 0 sample_provider (World [sample_call] ∅ [])))).
Proof.
  split; [vm_compute; discriminate|].
  refine (proj2 single_counts_positive 0 sample_provider (World [sample_call] ∅ []) _).
  apply map_Forall_empty.
Defined.

Lemma Counts_addAddress_empty a : Counts.addAddress (VStr EmptyString) a = (a, Ok tt).
Proof. reflexivity. Qed.

(** At [2^53] the count of the counting variant stops: one more addition
    stores [2^53] again. *)
Lemma Counts_addAddress_saturated s a :
  let k := toLowerCase s in
  s <> EmptyString ->
  Counts.Object_prototype k = VUndef ->
  Counts_count (Counts.addressCounts a) k = Counts.maxExact ->
  Counts_count (Counts.addressCounts (fst (Counts.addAddress (VStr s) a))) k
  = Counts.maxExact.
Proof.
  intros k Hs Hproto Hc. unfold Counts.addAddress.
  rewrite (truthy_VStr _ Hs). cbn [call_toLowerCase]. fold k.
  unfold Counts.setCount. rewrite (not_inherited_not_proto _ Hproto).
  unfold Counts.getCount, Counts_count in *.
  destruct (Counts.addressCounts a !! k) as [[|z]|] eqn:Hk; [done | | done].
  subst z.
  assert (truthy (VNumber (Num Counts.maxExact)) = true) as -> by reflexivity.
  assert (Counts.succ (Counts.toNumber (VNumber (Num Counts.maxExact)))
          = Num Counts.maxExact) as -> by (vm_compute; reflexivity).
  cbn [fst Counts.addressCounts]. by rewrite lookup_insert_eq.
Qed.

(** In the counting variant the count of an address that is not the name
    of an inherited property goes up by one with every addition of it, as
    long as it stays within the integers a number holds exactly: after
    adding the strings of a list, a count that ends at [2^53] at most has
    grown by the number of strings that lower-case to the address.  A
    count that has reached [2^53] stays there, whatever is added. *)
Theorem counting_variant_counts_additions (added : list string) a0 k :
  k <> EmptyString ->
  Counts.Object_prototype k = VUndef ->
  let count a := Counts_count (Counts.addressCounts a) k in
  let a' := foldl (fun a s => fst (Counts.addAddress (VStr s) a)) a0 added in
  ((0 <= count a0)%Z ->
   (count a0 + Z.of_nat (additions k added) <= Counts.maxExact)%Z ->
   count a' = (count a0 + Z.of_nat (additions k added))%Z)
  /\ (count a0 = Counts.maxExact -> count a' = Counts.maxExact).
Proof.
  intros Hk Hproto. cbv zeta. split.
  - revert a0. unfold additions.
    induction added as [|s added IH]; intros a0 H0 Hmax; [cbn; lia|].
    cbn [foldl]. rewrite filter_cons in *.
    destruct (decide (toLowerCase s = k)) as [Heq|Hne].
    + assert (s <> EmptyString) as Hs by (intros ->; by apply Hk).
      subst k. cbn [length] in Hmax.
      assert (Counts_count
                (Counts.addressCounts (fst (Counts.addAddress (VStr s) a0))) (toLowerCase s)
              = (Counts_count (Counts.addressCounts a0) (toLowerCase s) + 1)%Z) as Hone.
      { rewrite (Counts_addAddress_count s a0 Hs Hproto) by lia.
        cbn [fst Counts.addressCounts]. by rewrite Counts_count_insert. }
      rewrite IH; rewrite Hone; cbn [length]; lia.
    + assert (Counts_count (Counts.addressCounts (fst (Counts.addAddress (VStr s) a0))) k
              = Counts_count (Counts.addressCounts a0) k) as Hsame.
      { destruct (decide (s = EmptyString)) as [->|Hs]; [done|].
        unfold Counts_count.
        by rewrite (proj2 (Counts_addAddress_other s k a0 Hs Hne)). }
      rewrite IH; rewrite Hsame; [done | lia | lia].
  - revert a0. induction added as [|s added IH]; intros a0 Hmax; [done|].
    cbn [foldl]. apply IH.
    destruct (decide (toLowerCase s = k)) as [Heq|Hne].
    + assert (s <> EmptyString) as Hs by (intros ->; by apply Hk).
      subst k. by apply Counts_addAddress_saturated.
    + destruct (decide (s = EmptyString)) as [->|Hs]; [done|].
      unfold Counts_count in *.
      by rewrite (proj2 (Counts_addAddress_other s k a0 Hs Hne)).
Qed.

Lemma counting_variant_counts_additions_witness :
  Counts_count
    (Counts.addressCounts
       (foldl (fun a s => fst (Counts.addAddress (VStr s) a)) (Counts.Aggregate [] ∅)
          ["0xAB"; "0xcd"; "0xab"])) "0xab" = 2%Z
  /\ Counts_count
       (Counts.addressCounts
          (foldl (fun a s => fst (Counts.addAddress (VStr s) a))
             (Counts.Aggregate [] {["0xab" := Num Counts.maxExact]})
             ["0xAB"; "0xcd"; "0xab"])) "0xab" = Counts.maxExact.
Proof.
  split.
  - rewrite (proj1 (counting_variant_counts_additions ["0xAB"; "0xcd"; "0xab"]
                      (Counts.Aggregate [] ∅) "0xab" ltac:(discriminate) eq_refl));
      [vm_compute; reflexivity | vm_compute; discriminate | vm_compute; discriminate].
  - apply (proj2 (counting_variant_counts_additions ["0xAB"; "0xcd"; "0xab"]
                    (Counts.Aggregate [] {["0xab" := Num Counts.maxExact]}) "0xab"
                    ltac:(discriminate) eq_refl)).
    vm_compute. reflexivity.
Defined.

(** ** The variants find the same addresses *)

Lemma byHash_guard d :
  isGetTransactionByHash d = Ok true ->
  exists from, path d ["response"; "body"; "result"; "from"] = Ok from
               /\ truthy from = true.
Proof.
  intros H. destruct (member d "method") as [m|e] eqn:Hm.
  - rewrite (isGetTransactionByHash_eq d m Hm) in H. injection H as H.
    apply andb_prop in H as [_ H].
    eexists. split; [|exact H].
    apply (path_response d m Hm). by apply truthy_not_nullish.
  - unfold isGetTransactionByHash in H. by rewrite Hm in H.
Qed.

Lemma call_guard d :
  isCallWithFrom d = Ok true ->
  exists params param from,
    path d ["request"; "body"; "params"] = Ok params
    /\ index0 params = Ok param
    /\ member param "from" = Ok from
    /\ truthy from = true.
Proof.
  intros H. destruct (member d "method") as [m|e] eqn:Hm.
  - rewrite (isCallWithFrom_eq d m Hm) in H. injection H as H.
    apply andb_prop in H as [_ Hf].
    assert (nullish (optIndex0 (params_of d)) = false) as Hi.
    { destruct (nullish (optIndex0 (params_of d))) eqn:Hn; [|done].
      unfold optMember in Hf. by rewrite Hn in Hf. }
    assert (nullish (params_of d) = false) as Hp.
    { destruct (nullish (params_of d)) eqn:Hn; [|done].
      unfold optIndex0 in Hi. by rewrite Hn in Hi. }
    exists (params_of d), (elem0 (params_of d)), (prop (elem0 (params_of d)) "from").
    unfold optIndex0 in Hi, Hf. rewrite Hp in Hi, Hf.
    unfold optMember in Hf. rewrite Hi in Hf.
    split_and!; [by apply (path_params d m) | | by apply member_prop | done].
    unfold index0. by rewrite Hp.
  - unfold isCallWithFrom in H. by rewrite Hm in H.
Qed.

Section Simulation.
Context {A1 A2 : Type}.
Variable Rel : A1 -> A2 -> Prop.
Variable add1 : value -> A1 -> A1 * outcome unit.
Variable add2 : value -> A2 -> A2 * outcome unit.
Hypothesis add_related : forall v a1 a2,
  truthy v = true -> Rel a1 a2 ->
  Rel (fst (add1 v a1)) (fst (add2 v a2)) /\ snd (add1 v a1) = snd (add2 v a2).

#[local] Abbreviation sim := (simulates Rel).

Lemma sim_eval {X} (o : outcome X) : sim (eval o) (eval o).
Proof. by intros w1 w2 H. Qed.

Lemma sim_skip : sim skip skip.
Proof. by intros w1 w2 H. Qed.

Lemma sim_deref doc : sim (deref doc) (deref doc).
Proof. intros w1 w2 H. split; [done|]. unfold deref. cbn. by destruct H as [-> _]. Qed.

Lemma sim_bind {X Y} (m1 : M A1 X) (m2 : M A2 X) (f1 : X -> M A1 Y) (f2 : X -> M A2 Y) :
  sim m1 m2 -> (forall x, sim (f1 x) (f2 x)) -> sim (m1 ≫= f1) (m2 ≫= f2).
Proof.
  intros Hm Hf w1 w2 H. unfold mbind, M_bind.
  destruct (Hm w1 w2 H) as [Hw Ho].
  destruct (m1 w1) as [w1' [x|e]], (m2 w2) as [w2' [x'|e']]; simpl in *; try done.
  - injection Ho as <-. by apply Hf.
  - by injection Ho as <-.
Qed.

Lemma sim_try_catch_skip (m1 : M A1 unit) (m2 : M A2 unit) :
  sim m1 m2 -> sim (try_catch m1 (fun _ => skip)) (try_catch m2 (fun _ => skip)).
Proof.
  intros Hm w1 w2 H. unfold try_catch.
  destruct (Hm w1 w2 H) as [Hw Ho].
  by destruct (m1 w1) as [w1' [[]|e]], (m2 w2) as [w2' [[]|e']].
Qed.

Lemma sim_for_of {X} (xs : list X) (b1 : X -> M A1 unit) (b2 : X -> M A2 unit) :
  (forall x, sim (b1 x) (b2 x)) -> sim (for_of xs b1) (for_of xs b2).
Proof.
  intros Hb. induction xs as [|x xs IH]; [apply sim_skip|].
  cbn [for_of]. by apply sim_bind.
Qed.

Lemma sim_getTransaction p h : sim (getTransaction p h) (getTransaction p h).
Proof.
  intros w1 w2 (Hd & Hc & Ha). unfold getTransaction. rewrite Hc.
  destruct (p (calls w2) h); cbn; by rewrite Hd.
Qed.

Lemma sim_add v : truthy v = true -> sim (update (add1 v)) (update (add2 v)).
Proof.
  intros Hv w1 w2 (Hd & Hc & Ha). unfold update.
  destruct (add_related v (agg w1) (agg w2) Hv Ha) as [Hr Ho].
  destruct (add1 v (agg w1)), (add2 v (agg w2)). by cbn in *.
Qed.

Lemma sim_guarded_add from :
  sim (if truthy from then update (add1 from) else skip)
      (if truthy from then update (add2 from) else skip).
Proof. destruct (truthy from) eqn:Ht; [by apply sim_add | apply sim_skip]. Qed.

Lemma sim_addSender tx : sim (addSender add1 tx) (addSender add2 tx).
Proof.
  unfold addSender. apply sim_bind; [apply sim_eval | apply sim_guarded_add].
Qed.

Lemma sim_addParamSender param : sim (addParamSender add1 param) (addParamSender add2 param).
Proof.
  unfold addParamSender. destruct (_ && _); [|apply sim_skip].
  apply sim_bind; [apply sim_eval | apply sim_guarded_add].
Qed.

Lemma sim_resolveSender p h : sim (resolveSender add1 p h) (resolveSender add2 p h).
Proof.
  unfold resolveSender. apply sim_try_catch_skip.
  apply sim_bind; [apply sim_getTransaction|]. intros tx.
  destruct (truthy (tx?."from")) eqn:Ht; [|apply sim_skip].
  unfold member. destruct (nullish tx) eqn:Hn.
  - by intros w1 w2 H.
  - unfold optMember in Ht. rewrite Hn in Ht.
    intros w1 w2 H. rewrite !bind_eval_Ok. by apply sim_add.
Qed.

Lemma sim_blockTransactions p d :
  sim (blockTransactions add1 p d) (blockTransactions add2 p d).
Proof.
  unfold blockTransactions. apply sim_bind; [apply sim_eval|]. intros txs.
  destruct (_ && _); (apply sim_bind; [apply sim_eval|]); intros elems;
    apply sim_for_of; intros x; [apply sim_addSender | apply sim_resolveSender].
Qed.

Lemma sim_standardMethods doc p :
  sim (standardMethods add1 doc p) (standardMethods add2 doc p).
Proof.
  unfold standardMethods. apply sim_bind; [apply sim_deref|]. intros d.
  apply sim_bind; [apply sim_eval|]. intros [|]; [apply sim_blockTransactions|].
  apply sim_bind; [apply sim_eval|]. intros [|].
  { apply sim_bind; [apply sim_eval | intros h; apply sim_resolveSender]. }
  destruct (isGetTransactionByHash d) as [[|]|e] eqn:H3.
  - destruct (byHash_guard d H3) as (from & -> & Ht).
    intros w1 w2 H. rewrite !bind_eval_Ok. by apply sim_add.
  - intros w1 w2 H. rewrite !bind_eval_Ok. revert w1 w2 H.
    apply sim_bind; [apply sim_eval|]. intros [|]; [|apply sim_skip].
    apply sim_bind; [apply sim_eval|]. intros request.
    destruct (truthy _); [apply sim_resolveSender | apply sim_skip].
  - by intros w1 w2 H.
Qed.

Lemma sim_requestParams doc : sim (requestParams add1 doc) (requestParams add2 doc).
Proof.
  unfold requestParams. apply sim_bind; [apply sim_deref|]. intros d.
  apply sim_bind; [apply sim_eval|]. intros [|]; [|apply sim_skip].
  apply sim_bind; [apply sim_eval|]. intros params.
  destruct (isArray params); [|apply sim_skip].
  apply sim_bind; [apply sim_eval|]. intros elems.
  apply sim_for_of. apply sim_addParamSender.
Qed.

Lemma sim_callParams doc : sim (callParams add1 doc) (callParams add2 doc).
Proof.
  unfold callParams. apply sim_bind; [apply sim_deref|]. intros d.
  destruct (isCallWithFrom d) as [[|]|e] eqn:H4.
  - destruct (call_guard d H4) as (params & param & from & Hp & Hi & Hf & Ht).
    intros w1 w2 H. rewrite !bind_eval_Ok, Hp, !bind_eval_Ok, Hi, !bind_eval_Ok, Hf,
      !bind_eval_Ok. by apply sim_add.
  - intros w1 w2 H. by rewrite !bind_eval_Ok.
  - by intros w1 w2 H.
Qed.

Lemma sim_processDocument doc p :
  sim (processDocument add1 doc p) (processDocument add2 doc p).
Proof.
  unfold processDocument.
  apply sim_bind; [apply sim_standardMethods | intros _].
  apply sim_bind; [apply sim_requestParams | intros _; apply sim_callParams].
Qed.

Lemma sim_processAll p : sim (processAll add1 p) (processAll add2 p).
Proof.
  intros w1 w2 H. unfold processAll.
  destruct H as (Hd & Hc & Ha). rewrite Hd.
  apply sim_for_of; [|done].
  intros doc. apply sim_try_catch_skip, sim_processDocument.
Qed.

End Simulation.

Lemma Index_Counts_related v (a1 : list string) a2 :
  truthy v = true -> a1 = Counts.uniqueAddresses a2 ->
  fst (Index.addAddress v a1) = Counts.uniqueAddresses (fst (Counts.addAddress v a2))
  /\ snd (Index.addAddress v a1) = snd (Counts.addAddress v a2).
Proof.
  intros Hv ->. unfold Index.addAddress, Counts.addAddress. rewrite Hv.
  destruct v; cbn; try done. by destruct (truthy (Counts.getCount _ _)).
Qed.

Lemma Index_Single_related v (a : list string) (m : gmap string nat) :
  truthy v = true -> (forall k, k ∈ a <-> is_Some (m !! k)) ->
  (forall k, k ∈ fst (Index.addAddress v a) <-> is_Some (fst (Single.addAddress v m) !! k))
  /\ snd (Index.addAddress v a) = snd (Single.addAddress v m).
Proof.
  intros Hv Hrel. unfold Index.addAddress, Single.addAddress. rewrite Hv.
  destruct v; cbn; try done. split; [|done]. intros k.
  rewrite elem_of_Set_add, Hrel.
  destruct (decide (toLowerCase s = k)) as [->|Hne].
  - rewrite lookup_insert_eq. split; [by eexists | by left].
  - rewrite lookup_insert_ne by done. split; [intros [->|]; done | by right].
Qed.

(** [index.js] and the counting variant find the same addresses: on the
    same documents, with the same provider and the same calls made
    before, the two [extractFromAddresses] return the same array. *)
Theorem counting_variant_same_addresses provider
    (w1 : world (list string)) (w2 : world Counts.aggregate) :
  documents w1 = documents w2 ->
  calls w1 = calls w2 ->
  snd (Index.extractFromAddresses provider w1)
  = snd (Counts.extractFromAddresses provider w2).
Proof.
  intros Hd Hc.
  rewrite Index_extractFromAddresses_run, Counts_extractFromAddresses_run. cbn [snd].
  destruct (sim_processAll (fun (a1 : list string) a2 => a1 = Counts.uniqueAddresses a2)
              Index.addAddress Counts.addAddress Index_Counts_related provider
              (World (documents w1) [] (calls w1))
              (World (documents w2)
                 (Counts.Aggregate [] (Counts.addressCounts (agg w2))) (calls w2)))
    as [(_ & _ & Hrel) _]; [by split_and!|].
  by rewrite Hrel.
Qed.

Lemma counting_variant_same_addresses_witness :
  snd (Index.extractFromAddresses sample_provider
         (World [sample_block_hashes; sample_call] [] []))
  = snd (Counts.extractFromAddresses sample_provider
           (World [sample_block_hashes; sample_call] (Counts.Aggregate [] ∅) [])).
Proof.
  apply (counting_variant_same_addresses sample_provider
           (World [sample_block_hashes; sample_call] [] [])
           (World [sample_block_hashes; sample_call] (Counts.Aggregate [] ∅) []));
    reflexivity.
Defined.

(** No variant gets past reading the method of a document that is [null]
    or [undefined]. *)
Lemma processDocument_nullish {Agg} (add : value -> Agg -> Agg * outcome unit) doc p w :
  nullish (nth doc (documents w) VUndef) = true ->
  processDocument add doc p w = (w, Throw TypeError).
Proof.
  intros Hn. unfold processDocument, standardMethods, mbind, M_bind, deref, eval.
  unfold isBlockWithTransactions, member. rewrite Hn. reflexivity.
Qed.

Lemma countMethod_run {Agg} doc (w : world Agg) :
  countMethod doc w
  = (w, member (nth doc (documents w) VUndef) "method" ≫= toPropertyKey).
Proof.
  unfold countMethod, mbind at 1 2, M_bind, deref, eval.
  by destruct (member _ "method") as [method|e].
Qed.

Lemma tallied_nth docs doc : Forall tallied docs -> tallied (nth doc docs VUndef).
Proof.
  intros Hdocs. destruct (nth_in_or_default doc docs VUndef) as [Hin| ->]; [|done].
  rewrite Forall_forall in Hdocs. by apply Hdocs, list_elem_of_In.
Qed.

(** On a document it can tally, the single-chain loop does what the loop
    of [index.js] does. *)
Lemma sim_tallied_document provider doc
    (w1 : world (list string)) (w2 : world (gmap string nat)) :
  let Rel := fun (a : list string) (m : gmap string nat) =>
               forall k, k ∈ a <-> is_Some (m !! k) in
  agree Rel w1 w2 ->
  tallied (nth doc (documents w2) VUndef) ->
  agree Rel
    (fst (Index.processDocument doc provider w1))
    (fst ((countMethod doc;; Single.processDocument doc provider) w2)).
Proof.
  intros Rel Hagree Htallied. unfold mbind at 1, M_bind. rewrite countMethod_run.
  destruct (nullish (nth doc (documents w2) VUndef)) eqn:Hn.
  - assert (nullish (nth doc (documents w1) VUndef) = true) as Hn1
      by (destruct Hagree as [-> _]; done).
    unfold Index.processDocument.
    rewrite (processDocument_nullish _ _ _ _ Hn1).
    unfold member. by rewrite Hn.
  - unfold member. rewrite Hn. cbn [mbind outcome_bind]. rewrite (Htallied Hn).
    apply (sim_processDocument Rel Index.addAddress Single.addAddress
             Index_Single_related doc provider w1 w2 Hagree).
Qed.

Lemma Single_body_documents provider doc (w : world (gmap string nat)) :
  documents (fst ((countMethod doc;; Single.processDocument doc provider) w))
  = documents w.
Proof.
  apply (steps_bind (fun w w' => documents w' = documents w));
    [intros a b c Hab Hbc; congruence | | intros _ w'; apply processDocument_documents].
  apply steps_countMethod; [done | intros a b c Hab Hbc; congruence].
Qed.

Lemma sim_tallied_loop provider l :
  let Rel := fun (a : list string) (m : gmap string nat) =>
               forall k, k ∈ a <-> is_Some (m !! k) in
  forall (w1 : world (list string)) (w2 : world (gmap string nat)),
    agree Rel w1 w2 ->
    Forall tallied (documents w2) ->
    agree Rel
      (foldl (fun w doc => fst (Index.processDocument doc provider w)) w1 l)
      (foldl (fun w doc => fst ((countMethod doc;; Single.processDocument doc provider) w))
         w2 l).
Proof.
  intros Rel. induction l as [|doc l IH]; intros w1 w2 Hagree Hdocs; [done|].
  cbn [foldl]. apply IH.
  - by apply sim_tallied_document, tallied_nth.
  - by rewrite Single_body_documents.
Qed.

(** The single-chain variant counts exactly the addresses [index.js]
    finds when it can tally the method of every document: on the same
    documents, with the same provider and the same calls made before, an
    address is in the array of [index.js] exactly when the map of the
    single-chain variant has a count for it.  A document whose method does
    not convert to a property key is skipped by the single-chain variant
    before any rule looks at it. *)
Theorem single_variant_same_addresses provider :
  (forall (w1 : world (list string)) (w2 : world (gmap string nat)),
      documents w1 = documents w2 ->
      calls w1 = calls w2 ->
      Forall tallied (documents w2) ->
      forall k, k ∈ agg (fst (Index.extractFromAddresses provider w1))
                <-> is_Some (agg (fst (Single.extractFromAddresses provider w2)) !! k))
  /\ (forall d (w : world (gmap string nat)),
        documents w = [d] ->
        nullish d = false ->
        toPropertyKey (prop d "method") = Throw TypeError ->
        Single.extractFromAddresses provider w = (World [d] ∅ (calls w), Ok ∅)).
Proof.
  split.
  - intros w1 w2 Hd Hc Hdocs.
    rewrite Index_extractFromAddresses_run, Single_extractFromAddresses_run. cbn [fst].
    unfold processAll, Single.processAll. rewrite !for_of_try_catch.
    cbn [fst documents]. rewrite Hd.
    apply (sim_tallied_loop provider _ (World (documents w2) [] (calls w1))
             (World (documents w2) ∅ (calls w2))); [|done].
    split_and!; [done..|]. intros k. cbn.
    rewrite elem_of_nil, lookup_empty. split; [done | by intros [? ?]].
  - intros d w Hd Hn Hkey.
    rewrite Single_extractFromAddresses_run. unfold Single.processAll.
    rewrite for_of_try_catch. cbn [documents]. rewrite Hd. cbn [length seq foldl fst].
    assert ((countMethod 0;; Single.processDocument 0 provider) (World [d] ∅ (calls w))
            = (World [d] ∅ (calls w), Throw TypeError)) as Hbody.
    { unfold mbind at 1, M_bind. rewrite countMethod_run. cbn [documents nth].
      unfold member. rewrite Hn. cbn [mbind outcome_bind]. by rewrite Hkey. }
    by rewrite Hbody.
Qed.

Lemma single_variant_same_addresses_witness :
  ("0xabc" ∈ agg (fst (Index.extractFromAddresses sample_provider
                         (World [sample_call] [] [])))
   <-> is_Some (agg (fst (Single.extractFromAddresses sample_provider
                            (World [sample_call] ∅ []))) !! "0xabc"))
  /\ Single.extractFromAddresses sample_provider (World [sample_untallied] ∅ [])
     = (World [sample_untallied] ∅ [], Ok ∅)
  /\ snd (Index.extractFromAddresses sample_provider (World [sample_untallied] [] []))
     = Ok ["0xa"].
Proof.
  split_and!.
  - apply (proj1 (single_variant_same_addresses sample_provider)
             (World [sample_call] [] []) (World [sample_call] ∅ []));
      [reflexivity | reflexivity |].
    repeat constructor.
  - apply (proj2 (single_variant_same_addresses sample_provider) sample_untallied
             (World [sample_untallied] ∅ [])); reflexivity.
  - reflexivity.
Defined.

(** ** The run of [index.js] *)

Lemma Index_extracted p (w : world (list string)) :
  exists w' l, Index.extractFromAddresses p w = (w', Ok l)
               /\ NoDup l /\ Forall normalized l.
Proof.
  rewrite Index_extractFromAddresses_run. cbv zeta.
  eexists _, _. split; [reflexivity|].
  apply (processAll_invariant (fun a : list string => NoDup a /\ Forall normalized a)).
  - intros v a [Hn Hf]. split;
      [by apply Index_addAddress_NoDup | by apply Index_addAddress_normalized].
  - split; [apply NoDup_nil_2 | constructor].
Qed.

Lemma IndexMain_processChain_Ok env db net chain (w : world (list string)) :
  exists w' l, IndexMain.processChain env db net chain w = (w', Ok l)
               /\ Forall normalized l.
Proof.
  unfold IndexMain.processChain.
  destruct (getRpcProvider env chain) as [rpcUrl|msg]; [|by exists w, []].
  destruct (db chain) as [transactions|]; [|by exists w, []].
  destruct (length transactions =? 0)%nat; [by exists w, []|].
  unfold try_catch, mbind, M_bind, load.
  destruct (Index_extracted (net rpcUrl) (World transactions (agg w) (calls w)))
    as (w' & l & -> & _ & Hl).
  by exists w', l.
Qed.

Lemma IndexMain_processChains_Ok env db net chains (w : world (list string)) :
  exists w' arrays, IndexMain.processChains env db net chains w = (w', Ok arrays)
                    /\ Forall (Forall normalized) arrays.
Proof.
  revert w. induction chains as [|chain chains IH]; intros w; [by exists w, []|].
  cbn [IndexMain.processChains]. unfold mbind, M_bind.
  destruct (IndexMain_processChain_Ok env db net chain w) as (w1 & l & -> & Hl).
  destruct (IH w1) as (w2 & arrays & -> & Harrays).
  exists w2, (l :: arrays). split; [done | by constructor].
Qed.

Lemma merged_normalized arrays :
  Forall (Forall normalized) arrays -> Forall normalized (Index.mergeAddresses arrays).
Proof.
  intros Hall. apply Forall_forall. intros a Ha.
  apply (elem_of_merge_from [] arrays a) in Ha as [Ha|(s & Hs & Ha)];
    [by apply elem_of_nil in Ha|].
  rewrite Forall_forall in Hall. specialize (Hall s Hs).
  rewrite Forall_forall in Hall. by apply Hall.
Qed.

(** [main] of [index.js] ends with code 0 exactly when the configuration
    is valid, the database connects and the output file can be written:
    no document, failed query or failing provider makes the run fail.  A
    run that ends with code 0 has written one file, [OUTPUT_FILE], which
    lists addresses without upper-case letters, none twice.  Every other
    run ends with code 1 and writes nothing. *)
Theorem index_main_outcome env connect net writable :
  let run := IndexMain.main env connect net writable in
  (fst run = Exited 0
   <-> Config.validateConfig env = Running /\ is_Some connect
       /\ writable (Config.output env) = true)
  /\ (fst run = Exited 0 ->
      exists rows, snd run = Some (Config.output env, rows)
                   /\ NoDup rows /\ Forall normalized rows)
  /\ (fst run <> Exited 0 -> fst run = Exited 1 /\ snd run = None).
Proof.
  unfold IndexMain.main.
  destruct (validateConfig_cases env) as [_ [Hv|Hv]]; rewrite Hv; cbn [fst snd];
    [|split_and!; [split; [done | by intros [? _]] | done | done]].
  destruct connect as [db|]; cbn [fst snd];
    [|split_and!; [split; [done | by intros (_ & [? ?] & _)] | done | done]].
  destruct (IndexMain_processChains_Ok env db net Config.ALL_CHAINS (World [] [] []))
    as (w' & arrays & -> & Harrays).
  destruct (writable (Config.output env)); cbn [fst snd].
  - split_and!; [split; [by eauto | done] | | done].
    intros _. eexists. split_and!; [done | | by apply merged_normalized].
    apply (NoDup_merge_from [] arrays), NoDup_nil_2.
  - split_and!; [split; [done | by intros (_ & _ & ?)] | done | done].
Qed.

Lemma index_main_outcome_witness :
  let run := IndexMain.main sample_env (Some sample_database) sample_network
               (fun _ => true) in
  fst run = Exited 0
  /\ snd run = Some ("all_chains_unique_addresses.csv", ["0xc"; "0xabc"])
  /\ exists rows,
       snd run = Some (Config.output sample_env, rows)
       /\ NoDup rows /\ Forall normalized rows.
Proof.
  intros run.
  pose proof (index_main_outcome sample_env (Some sample_database) sample_network
                (fun _ => true)) as H.
  cbv zeta in H. destruct H as (Hcode & Hrows & _).
  assert (fst run = Exited 0) as Hrun.
  { apply Hcode. split_and!; [vm_compute; reflexivity | by eexists | reflexivity]. }
  split_and!; [exact Hrun | vm_compute; reflexivity | exact (Hrows Hrun)].
Defined.

(** ** The run of the counting variant *)

Lemma setCount_dom_iff (c : gmap string number) k n x :
  x ∈ dom (Counts.setCount c k n) <-> (x = k /\ k <> "__proto__") \/ x ∈ dom c.
Proof.
  unfold Counts.setCount. destruct (String.eqb_spec k "__proto__") as [->|Hne].
  - split; [by right | by intros [[_ ?]|]].
  - rewrite dom_insert_L, elem_of_union, elem_of_singleton. tauto.
Qed.

Lemma Counts_addAddress_counted (earlier : list string) v a :
  counted earlier a -> counted earlier (fst (Counts.addAddress v a)).
Proof.
  intros [H1 H2]. unfold Counts.addAddress.
  destruct (truthy v); [|done]. destruct v; cbn [call_toLowerCase]; try done.
  destruct (truthy (Counts.getCount _ _)); unfold counted;
    cbn [fst Counts.uniqueAddresses Counts.addressCounts]; split; intros k;
    rewrite setCount_dom_iff, elem_of_Set_add;
    specialize (H1 k); specialize (H2 k); intuition (subst; auto).
Qed.

Lemma Counts_extracted_counted p (w : world Counts.aggregate) (earlier : list string) :
  (forall k, k ∈ dom (Counts.addressCounts (agg w)) <-> k ∈ earlier /\ k <> "__proto__") ->
  exists w' l,
    Counts.extractFromAddresses p w = (w', Ok l)
    /\ forall k, k ∈ dom (Counts.addressCounts (agg w'))
                 <-> (k ∈ earlier \/ k ∈ l) /\ k <> "__proto__".
Proof.
  intros H0. rewrite Counts_extractFromAddresses_run. cbv zeta.
  eexists _, _. split; [reflexivity|].
  set (w0 := World (documents w) (Counts.Aggregate [] (Counts.addressCounts (agg w)))
               (calls w)).
  assert (counted earlier (agg (fst (processAll Counts.addAddress p w0)))
          /\ "__proto__" ∉ dom (Counts.addressCounts
                                  (agg (fst (processAll Counts.addAddress p w0)))))
    as [[H1 H2] H3].
  { apply (processAll_invariant
             (fun a => counted earlier a /\ "__proto__" ∉ dom (Counts.addressCounts a))).
    - intros v a [Hc Hp]. split; [by apply Counts_addAddress_counted|].
      unfold Counts.addAddress. destruct (truthy v); [|done].
      destruct v; cbn [call_toLowerCase]; try done.
      destruct (truthy (Counts.getCount _ _));
        cbn [fst Counts.addressCounts]; rewrite setCount_dom_iff;
        (intros [[Heq Hne]|?]; [by apply Hne | done]).
    - unfold w0. cbn. split; [split|].
      + intros k Hk. right. by apply H0.
      + intros k [Hk|Hk] Hne; [by apply elem_of_nil in Hk | by apply H0].
      + intros Hk. by apply H0 in Hk as [_ ?]. }
  intros k. split.
  - intros Hk. split; [destruct (H1 k Hk); auto | by intros ->].
  - intros [[Hk|Hk] Hne]; apply H2; auto.
Qed.

Lemma CountsMain_processChain_counted env db net chain (w : world Counts.aggregate)
    (earlier : list string) :
  (forall k, k ∈ dom (Counts.addressCounts (agg w)) <-> k ∈ earlier /\ k <> "__proto__") ->
  exists w' l n,
    CountsMain.processChain env db net chain w = (w', Ok (l, n))
    /\ (n = 0 \/ exists transactions, db chain = Some transactions
                                      /\ n = length transactions)
    /\ forall k, k ∈ dom (Counts.addressCounts (agg w'))
                 <-> (k ∈ earlier \/ k ∈ l) /\ k <> "__proto__".
Proof.
  intros H0.
  assert (forall k, k ∈ dom (Counts.addressCounts (agg w))
                    <-> (k ∈ earlier \/ k ∈ []) /\ k <> "__proto__") as Hnone.
  { intros k. rewrite H0, elem_of_nil. tauto. }
  unfold CountsMain.processChain.
  destruct (getRpcProvider env chain) as [rpcUrl|msg];
    [|exists w, [], 0; split_and!; [done | by left | done]].
  destruct (db chain) as [transactions|];
    [|exists w, [], 0; split_and!; [done | by left | done]].
  destruct (length transactions =? 0)%nat;
    [exists w, [], 0; split_and!; [done | by left | done]|].
  unfold try_catch, mbind, M_bind, load.
  destruct (Counts_extracted_counted (net rpcUrl)
              (World transactions (agg w) (calls w)) earlier H0)
    as (w' & l & -> & Hk).
  exists w', l, (length transactions). split_and!; [done | right; eauto | done].
Qed.

Lemma CountsMain_processChains_counted env db net chains :
  forall (t : CountsMain.tally) (w : world Counts.aggregate),
  (forall k, k ∈ dom (Counts.addressCounts (agg w))
             <-> k ∈ concat (CountsMain.allAddressArrays t) /\ k <> "__proto__") ->
  exists w' t',
    CountsMain.processChains env db net chains t w = (w', Ok t')
    /\ forall k, k ∈ dom (Counts.addressCounts (agg w'))
                 <-> k ∈ concat (CountsMain.allAddressArrays t') /\ k <> "__proto__".
Proof.
  induction chains as [|chain chains IH]; intros t w H0; [by exists w, t|].
  cbn [CountsMain.processChains]. unfold mbind, M_bind.
  destruct (CountsMain_processChain_counted env db net chain w _ H0)
    as (w1 & l & n & -> & _ & H1).
  apply IH. cbn. intros k. rewrite H1, concat_app, elem_of_app. cbn.
  by rewrite app_nil_r.
Qed.

Lemma elem_of_merged arrays a :
  a ∈ Index.mergeAddresses arrays <-> a ∈ concat arrays.
Proof.
  unfold Index.mergeAddresses. rewrite (elem_of_merge_from [] arrays a), elem_of_nil.
  induction arrays as [|s arrays IH]; cbn [concat].
  - rewrite elem_of_nil. split; [|done].
    intros [[]|(s & Hs & _)]. by apply elem_of_nil in Hs.
  - rewrite elem_of_app, <- IH. split.
    + intros [[]|(s' & [->|Hs']%elem_of_cons & Ha)]; [by left | right; right; eauto].
    + intros [Ha|[[]|(s' & Hs' & Ha)]]; right;
        [exists s; split; [left | done] | exists s'; split; [by right | done]].
Qed.

(** The counts report and the addresses report of the counting variant
    list the same addresses: when [main] has written both, an address is
    a key of the counts exactly when it is in the merged addresses and is
    not [__proto__], which the counts object cannot hold. *)
Theorem counts_report_matches_addresses env connect net writable startDate endDate
    files path1 mergedAddresses path3 addressCounts :
  snd (CountsMain.main env connect net writable startDate endDate) = files ->
  CountsMain.AddressesCsv path1 mergedAddresses ∈ files ->
  CountsMain.CountsCsv path3 addressCounts ∈ files ->
  forall k, k ∈ dom addressCounts <-> k ∈ mergedAddresses /\ k <> "__proto__".
Proof.
  unfold CountsMain.main.
  destruct (Config.validateConfig env);
    [|intros <- H; by apply elem_of_nil in H].
  destruct connect as [db|]; [|intros <- H; by apply elem_of_nil in H].
  destruct (CountsMain_processChains_counted env db net Config.ALL_CHAINS
              (CountsMain.Tally [] 0 ∅) (World [] (Counts.Aggregate [] ∅) []))
    as (w' & t' & -> & Hk).
  { intros k. cbn. rewrite dom_empty_L, elem_of_nil, elem_of_empty. tauto. }
  destruct (negb (writable _)); [intros <- H; by apply elem_of_nil in H|].
  destruct (negb (writable _)).
  { intros <- _ H. apply elem_of_cons in H as [H|H]; [done | by apply elem_of_nil in H]. }
  destruct (negb (writable _)).
  { intros <- _ H. repeat (apply elem_of_cons in H as [H|H]; [done|]).
    by apply elem_of_nil in H. }
  intros <- H1 H3.
  repeat (apply elem_of_cons in H1 as [H1|H1]; [try done|]);
    [|by apply elem_of_nil in H1].
  repeat (apply elem_of_cons in H3 as [H3|H3]; [try done|]);
    [|by apply elem_of_nil in H3].
  injection H1 as -> ->. injection H3 as -> ->.
  intros k. by rewrite Hk, elem_of_merged.
Qed.

Lemma counts_report_matches_addresses_witness :
  let files := snd (CountsMain.main sample_env (Some sample_database) sample_network
                      (fun _ => true) "start" "end") in
  exists path1 mergedAddresses path3 addressCounts,
    CountsMain.AddressesCsv path1 mergedAddresses ∈ files
    /\ CountsMain.CountsCsv path3 addressCounts ∈ files
    /\ forall k, k ∈ dom addressCounts <-> k ∈ mergedAddresses /\ k <> "__proto__".
Proof.
  intros files.
  assert (exists path1 mergedAddresses stats path3 addressCounts,
             files = [CountsMain.AddressesCsv path1 mergedAddresses; stats;
                      CountsMain.CountsCsv path3 addressCounts])
    as (path1 & mergedAddresses & stats & path3 & addressCounts & Hfiles)
    by (vm_compute; repeat eexists).
  assert (CountsMain.AddressesCsv path1 mergedAddresses ∈ files) as H1
    by (rewrite Hfiles; left).
  assert (CountsMain.CountsCsv path3 addressCounts ∈ files) as H3
    by (rewrite Hfiles; right; right; left).
  exists path1, mergedAddresses, path3, addressCounts. split_and!; [done..|].
  exact (counts_report_matches_addresses sample_env (Some sample_database) sample_network
           (fun _ => true) "start" "end" files path1 mergedAddresses path3 addressCounts
           eq_refl H1 H3).
Defined.

Lemma Counts_extracted_Ok p (w : world Counts.aggregate) :
  exists w' l, Counts.extractFromAddresses p w = (w', Ok l).
Proof. rewrite Counts_extractFromAddresses_run. by eexists _, _. Qed.

(** Every chain of a validated configuration has its provider. *)
Lemma validated_provider env chain :
  Config.validateConfig env = Running ->
  chain ∈ Config.ALL_CHAINS ->
  exists url, getRpcProvider env chain = Done (VStr url).
Proof.
  intros Hv Hchain. apply validateConfig_cases in Hv.
  do 3 apply Forall_cons_1 in Hv as [_ Hv].
  assert (exists url, env !! rpcUrlVar chain = Some url /\ url <> EmptyString)
    as (url & Hurl & Hne).
  { rewrite Forall_forall in Hv. apply Hv.
    unfold Config.ALL_CHAINS in Hchain.
    repeat (apply elem_of_cons in Hchain as [->|Hchain]);
      [..|by apply elem_of_nil in Hchain];
      apply list_elem_of_In; repeat (first [left; reflexivity | right]). }
  exists url. apply getRpcProvider_known; [|done..].
  unfold Config.ALL_CHAINS in *.
  repeat (apply elem_of_cons in Hchain as [->|Hchain]);
    [..|by apply elem_of_nil in Hchain];
    apply list_elem_of_In; repeat (first [left; reflexivity | right]).
Qed.

(** With a provider, the number [processChain] reports for a chain is the
    number of documents the query returned, 0 when the query failed. *)
Lemma CountsMain_processChain_found env db net chain (w : world Counts.aggregate) rpcUrl :
  getRpcProvider env chain = Done rpcUrl ->
  exists w' l, CountsMain.processChain env db net chain w = (w', Ok (l, found db chain)).
Proof.
  intros Hp. unfold CountsMain.processChain, found. rewrite Hp.
  destruct (db chain) as [transactions|]; [|by exists w, []].
  destruct (Nat.eqb_spec (length transactions) 0) as [->|_]; [by exists w, []|].
  unfold try_catch, mbind, M_bind, load.
  destruct (Counts_extracted_Ok (net rpcUrl) (World transactions (agg w) (calls w)))
    as (w' & l & ->).
  by exists w', l.
Qed.

Lemma CountsMain_processChains_tally env db net chains :
  NoDup chains ->
  (forall c, c ∈ chains -> exists rpcUrl, getRpcProvider env c = Done rpcUrl) ->
  forall (t : CountsMain.tally) (w : world Counts.aggregate),
  exists w' t',
    CountsMain.processChains env db net chains t w = (w', Ok t')
    /\ CountsMain.totalTransactions t'
       = CountsMain.totalTransactions t
         + total ((fun c => default 0 (CountsMain.transactionsByChain t' !! c)) <$> chains)
    /\ (forall c, c ∉ chains ->
                  CountsMain.transactionsByChain t' !! c
                  = CountsMain.transactionsByChain t !! c)
    /\ (forall c, c ∈ chains ->
                  CountsMain.transactionsByChain t' !! c = Some (found db c)).
Proof.
  induction 1 as [|chain chains Hnotin Hnd IH]; intros Hproviders t w.
  - exists w, t. split_and!; [done | cbn; lia | done |].
    intros c Hc. by apply elem_of_nil in Hc.
  - cbn [CountsMain.processChains]. unfold mbind, M_bind.
    destruct (Hproviders chain) as [rpcUrl Hp]; [by left|].
    destruct (CountsMain_processChain_found env db net chain w rpcUrl Hp) as (w1 & l & ->).
    cbn [fst snd].
    destruct (IH (fun c Hc => Hproviders c (list_elem_of_further _ _ _ Hc))
                (CountsMain.Tally (CountsMain.allAddressArrays t ++ [l])
                   (CountsMain.totalTransactions t + found db chain)
                   (<[chain := found db chain]> (CountsMain.transactionsByChain t))) w1)
      as (w' & t' & -> & Htotal & Hother & Hin).
    cbn [CountsMain.totalTransactions CountsMain.transactionsByChain] in *.
    assert (CountsMain.transactionsByChain t' !! chain = Some (found db chain)) as Hchain.
    { rewrite (Hother chain Hnotin). apply lookup_insert_eq. }
    exists w', t'. split_and!; [done | | |].
    + rewrite Htotal, fmap_cons. cbn [total foldr]. rewrite Hchain. cbn.
      fold (total ((fun c => default 0 (CountsMain.transactionsByChain t' !! c)) <$> chains)).
      lia.
    + intros c Hc. apply not_elem_of_cons in Hc as [Hne Hc].
      rewrite (Hother c Hc). by apply lookup_insert_ne.
    + intros c [->|Hc]%elem_of_cons; [done | by apply Hin].
Qed.

Lemma ALL_CHAINS_NoDup : NoDup Config.ALL_CHAINS.
Proof.
  unfold Config.ALL_CHAINS.
  repeat (apply NoDup_cons; split; [rewrite ?elem_of_cons, elem_of_nil; intuition congruence|]).
  apply NoDup_nil_2.
Qed.

(** What the loop of [main] leaves when the configuration is valid. *)
Lemma CountsMain_processChains_validated env db net :
  Config.validateConfig env = Running ->
  exists w' t',
    CountsMain.processChains env db net Config.ALL_CHAINS (CountsMain.Tally [] 0 ∅)
      (World [] (Counts.Aggregate [] ∅) []) = (w', Ok t')
    /\ CountsMain.totalTransactions t'
       = total ((fun c => default 0 (CountsMain.transactionsByChain t' !! c))
                <$> Config.ALL_CHAINS)
    /\ (forall c, c ∈ Config.ALL_CHAINS ->
                  CountsMain.transactionsByChain t' !! c = Some (found db c)).
Proof.
  intros Hv.
  destruct (CountsMain_processChains_tally env db net Config.ALL_CHAINS ALL_CHAINS_NoDup
              (fun c Hc => match validated_provider env c Hv Hc with
                           | ex_intro _ url Hurl => ex_intro _ (VStr url) Hurl
                           end)
              (CountsMain.Tally [] 0 ∅) (World [] (Counts.Aggregate [] ∅) []))
    as (w' & t' & Hrun & Htotal & _ & Hin).
  by exists w', t'.
Qed.



(** ** The run of the single-chain variant *)

Lemma Single_extracted provider (w : world (gmap string nat)) :
  exists w' counts,
    Single.extractFromAddresses provider w = (w', Ok counts)
    /\ (forall k n, counts !! k = Some n -> normalized k /\ 0 < n).
Proof.
  rewrite Single_extractFromAddresses_run. cbn zeta. eexists _, _. split; [done|].
  intros k n Hk. split.
  - cut (forall k, k ∈ dom (agg (fst (Single.processAll provider
                                         (World (documents w) ∅ (calls w))))) ->
                   normalized k).
    { intros H. apply H. apply elem_of_dom. by exists n. }
    apply (Single_processAll_invariant
             (fun m : gmap string nat => forall k, k ∈ dom m -> normalized k));
      [intros; by eapply Single_addAddress_normalized|].
    intros k'. cbn. rewrite dom_empty_L, elem_of_empty. tauto.
  - revert k n Hk.
    apply (Single_processAll_invariant
             (fun m : gmap string nat => map_Forall (fun _ n => 0 < n) m));
      [intros; by apply Single_addAddress_positive|].
    apply map_Forall_empty.
Qed.

(** A provider is built from a non-empty string only. *)
Lemma getRpcProvider_Done env chain rpcUrl :
  getRpcProvider env chain = Done rpcUrl ->
  exists url, rpcUrl = VStr url /\ url <> EmptyString.
Proof.
  unfold getRpcProvider, JsonRpcProvider.
  destruct (object_get _ _) as [| | | |url| | |] eqn:Hget;
    destruct (truthy _) eqn:Ht; try done.
  intros [= <-]. exists url. split; [done|].
  intros ->. by cbn in Ht.
Qed.

(** No chain but the four of [config.rpc] gets a provider: for a name an
    object inherits, like [constructor], the constructor of the provider
    throws, and for any other name [getRpcProvider] throws itself. *)
Lemma getRpcProvider_unknown env chain :
  toLowerCase chain ∉ Config.ALL_CHAINS ->
  exists message, getRpcProvider env chain = Failed message.
Proof.
  intros Hk. unfold getRpcProvider, object_get.
  rewrite (config_rpc_unknown _ _ Hk). unfold Counts.Object_prototype.
  destruct (bool_decide _); [by eexists|].
  destruct (String.eqb _ "__proto__"); by eexists.
Qed.

Lemma SingleConfig_validateConfig_code args env code :
  SingleConfig.validateConfig args env = Exited code -> code = 1.
Proof.
  unfold SingleConfig.validateConfig. intros Hv.
  repeat match type of Hv with
         | (if ?c then _ else _) = _ => destruct c
         | match ?v with _ => _ end = _ => destruct v
         end; congruence.
Qed.

(** [main] of the single-chain variant ends with code 0 exactly when the
    configuration is valid, the database connects, [getRpcProvider]
    builds a provider for the target chain, the query succeeds and the
    report can be written; unlike the multi-chain script, a failed query
    or a chain without a provider ends the run.  A run that ends with code
    0 has written one report, named after the chain and the output file,
    whose addresses hold no upper-case letter and whose counts are
    positive.  Every other run ends with code 1 and writes nothing; so
    does every run for a chain that is not one of the four of
    [config.rpc], validated or not. *)
Theorem single_main_outcome args env connect net writable :
  let run := SingleMain.main args env connect net writable in
  (fst run = Exited 0
   <-> exists chain db url transactions,
         SingleConfig.validateConfig args env = Running
         /\ SingleConfig.targetChain args env = VStr chain
         /\ connect = Some db
         /\ getRpcProvider env chain = Done (VStr url)
         /\ db chain = Some transactions
         /\ writable (SingleMain.filename chain (SingleConfig.output env)) = true)
  /\ (fst run = Exited 0 ->
      exists chain counts,
        SingleConfig.targetChain args env = VStr chain
        /\ snd run = Some (SingleMain.filename chain (SingleConfig.output env), counts)
        /\ forall k n, counts !! k = Some n -> normalized k /\ 0 < n)
  /\ (fst run <> Exited 0 -> fst run = Exited 1 /\ snd run = None)
  /\ (forall chain,
        SingleConfig.targetChain args env = VStr chain ->
        toLowerCase chain ∉ Config.ALL_CHAINS ->
        fst run = Exited 1).
Proof.
  unfold SingleMain.main.
  destruct (SingleConfig.validateConfig args env) as [|code] eqn:Hv; cbn [fst snd].
  2:{ rewrite (SingleConfig_validateConfig_code _ _ _ Hv).
      split_and!; [split; [done | by intros (? & ? & ? & ? & ? & _)] | done..]. }
  destruct (SingleConfig.targetChain args env) as [| | | |chain| | |] eqn:Ht; cbn [fst snd];
    try (split_and!;
         [split; [done | by intros (? & ? & ? & ? & _ & ? & _)] | done..]).
  destruct connect as [db|]; cbn [fst snd];
    [|split_and!;
      [split; [done | by intros (? & ? & ? & ? & _ & _ & ? & _)] | done..]].
  destruct (getRpcProvider env chain) as [rpcUrl|msg] eqn:Hp; cbn [fst snd];
    [|split_and!;
      [split; [done | intros (? & ? & ? & ? & _ & [= <-] & _ & ? & _); congruence]
      | done..]].
  destruct (getRpcProvider_Done _ _ _ Hp) as (url & -> & _).
  assert (forall chain', VStr chain = VStr chain' ->
                         toLowerCase chain' ∉ Config.ALL_CHAINS -> False) as Hknown.
  { intros chain' [= <-] Hk. destruct (getRpcProvider_unknown env chain Hk) as [msg Hmsg].
    congruence. }
  destruct (db chain) as [transactions|] eqn:Hq; cbn [fst snd];
    [|split_and!;
      [split; [done | intros (? & ? & ? & ? & _ & [= <-] & [= <-] & _ & ? & _); congruence]
      | done | done | intros chain' Hc Hk; by destruct (Hknown chain' Hc Hk)]].
  destruct (Single_extracted (net (VStr url)) (World transactions ∅ []))
    as (w' & counts & -> & Hcounts).
  destruct (writable _) eqn:Hw; cbn [fst snd].
  - split_and!; [split; [intros _; by eexists chain, db, url, transactions | done]
                | | done | intros chain' Hc Hk; by destruct (Hknown chain' Hc Hk)].
    intros _. by exists chain, counts.
  - split_and!; [split; [done|] | done | done
                | intros chain' Hc Hk; by destruct (Hknown chain' Hc Hk)].
    intros (? & ? & ? & ? & _ & [= <-] & _ & _ & _ & ?). congruence.
Qed.

Lemma single_main_outcome_witness :
  let run := SingleMain.main ["bnb"] sample_env (Some sample_database) sample_network
               (fun _ => true) in
  let unknown := SingleMain.main ["constructor"]
                   (<["CONSTRUCTOR_RPC_URL" := "https://c"]> sample_env)
                   (Some sample_database) sample_network (fun _ => true) in
  fst run = Exited 0
  /\ snd run = Some ("bnb_unique_addresses.csv", {["0xc" := 1; "0xabc" := 2]})
  /\ (exists chain counts,
        SingleConfig.targetChain ["bnb"] sample_env = VStr chain
        /\ snd run = Some (SingleMain.filename chain (SingleConfig.output sample_env), counts)
        /\ forall k n, counts !! k = Some n -> normalized k /\ 0 < n)
  /\ SingleConfig.validateConfig ["constructor"]
       (<["CONSTRUCTOR_RPC_URL" := "https://c"]> sample_env) = Running
  /\ fst unknown = Exited 1.
Proof.
  intros run unknown.
  pose proof (single_main_outcome ["bnb"] sample_env (Some sample_database) sample_network
                (fun _ => true)) as H.
  cbv zeta in H. destruct H as (_ & Hreport & _).
  pose proof (single_main_outcome ["constructor"]
                (<["CONSTRUCTOR_RPC_URL" := "https://c"]> sample_env)
                (Some sample_database) sample_network (fun _ => true)) as H.
  cbv zeta in H. destruct H as (_ & _ & _ & Hunknown).
  assert (fst run = Exited 0) as Hrun by (vm_compute; reflexivity).
  split_and!; [exact Hrun | vm_compute; reflexivity | exact (Hreport Hrun)
              | vm_compute; reflexivity |].
  apply (Hunknown "constructor"); [reflexivity|].
  unfold Config.ALL_CHAINS. intros Hin.
  repeat (apply elem_of_cons in Hin as [Hin|Hin]; [discriminate Hin|]).
  by apply elem_of_nil in Hin.
Defined.

(** ** The reports the counting variant leaves *)

(** [main] of the counting variant writes its three reports one after the
    other, the addresses first, then the statistics, then the counts, and
    what the reports hold does not depend on the disk.  It ends with code
    0 exactly when the three can be written; a report that cannot be
    written ends the run with code 1, and the reports written before it
    stay on disk.  Without a valid configuration or a connection nothing
    is written. *)
Theorem counts_main_outcome env net startDate endDate :
  (forall connect writable,
      Config.validateConfig env <> Running \/ connect = None ->
      CountsMain.main env connect net writable startDate endDate = (Exited 1, []))
  /\ (Config.validateConfig env = Running ->
      forall db,
      exists addresses stats counts,
        let output := Config.output env in
        let reports := [CountsMain.AddressesCsv output addresses;
                        CountsMain.StatsCsv (statsFilename output) stats;
                        CountsMain.CountsCsv (countsFilename output) counts] in
        forall writable,
          CountsMain.main env (Some db) net writable startDate endDate
          = (if forallb (fun report => writable (reportPath report)) reports
             then Exited 0 else Exited 1,
             writtenBefore writable reports)).
Proof.
  split.
  - intros connect writable Hno. unfold CountsMain.main.
    destruct (validateConfig_cases env) as [_ [Hv|Hv]]; rewrite Hv; [|done].
    destruct Hno as [Hno| ->]; [by destruct Hno | done].
  - intros Hv db. unfold CountsMain.main. rewrite Hv.
    destruct (CountsMain_processChains_validated env db net Hv) as (w' & t' & -> & _).
    eexists _, _, _. intros writable. cbn [forallb writtenBefore reportPath].
    destruct (writable (Config.output env)); cbn [negb andb]; [|done].
    destruct (writable (statsFilename (Config.output env))); cbn [negb andb]; [|done].
    by destruct (writable (countsFilename (Config.output env))).
Qed.

Lemma counts_main_outcome_witness :
  let onlyAddresses := fun path => String.eqb path "all_chains_unique_addresses.csv" in
  exists addresses,
    CountsMain.main sample_env (Some sample_database) sample_network onlyAddresses
      "start" "end"
    = (Exited 1, [CountsMain.AddressesCsv "all_chains_unique_addresses.csv" addresses]).
Proof.
  intros onlyAddresses.
  destruct (proj2 (counts_main_outcome sample_env sample_network "start" "end")
              ltac:(vm_compute; reflexivity) sample_database)
    as (addresses & stats & counts & Hrun).
  exists addresses. cbv zeta in Hrun. rewrite (Hrun onlyAddresses). reflexivity.
Defined.
